(** * A shallow embedding of [midi_writer.py]

    The Python class [MidiWriter] collects time-stamped MIDI events per track
    and serialises them into a Standard MIDI File.  Python integers are
    unbounded, so they are modelled by [Z]; a [bytes] object is a
    [list byte]; the object state of a [MidiWriter] is threaded explicitly
    through every method; an exception that leaves a method is a [Raised]
    result; a [while] loop is a fuel-indexed recursion together with a proof
    that the fuel handed to it is never exhausted. *)

From Stdlib Require Import ZArith List Ascii String DecimalString Lia Sorted.
From Stdlib.Strings Require Import Byte.
From stdpp Require Import base option list gmap strings.
Import ListNotations.

Local Open Scope Z_scope.

(** ** Python values and exceptions *)

(** The exceptions the module can raise.  Only [ValueError] is ever caught
    (and its message printed), so only it carries its message. *)
Inductive exn : Type :=
  | ValueError (msg : string)
  | OverflowError
  | IndexError
  | StructError.

Inductive result (A : Type) : Type :=
  | Returned (a : A)
  | Raised (e : exn).

Arguments Returned {A} a.
Arguments Raised {A} e.

Definition bind {A B : Type} (r : result A) (k : A -> result B) : result B :=
  match r with
  | Returned a => k a
  | Raised e => Raised e
  end.

Notation "'let*' x ':=' r 'in' k" := (bind r (fun x => k))
  (at level 10, x pattern, r at level 100, k at level 200).

Definition bytes : Type := list byte.

Definition len {A : Type} (l : list A) : Z := Z.of_nat (length l).

Definition Z_of_byte (b : byte) : Z := Z.of_N (Byte.to_N b).

Definition byte_of_Z (z : Z) : option byte :=
  if z <? 0 then None else Byte.of_N (Z.to_N z).

(** [bytes(iterable_of_ints)]: every item must be in [range(0, 256)]. *)
Fixpoint py_bytes (items : list Z) : result bytes :=
  match items with
  | [] => Returned []
  | z :: rest =>
      match byte_of_Z z with
      | None => Raised (ValueError "bytes must be in range(0, 256)")
      | Some b => let* bs := py_bytes rest in Returned (b :: bs)
      end
  end.

(** [str(n)] for an integer. *)
Definition str (n : Z) : string := NilZero.string_of_int (Z.to_int n).

(** ** [MidiWriter.encode_var_len] *)

(** First loop: [while value > 0: buffer = (buffer << 8) | ((value & 0x7F) | 0x80);
    value >>= 7]. *)
Fixpoint pack_groups (fuel : nat) (buffer value : Z) : option Z :=
  match fuel with
  | O => None
  | S fuel' =>
      if 0 <? value
      then pack_groups fuel'
             (Z.lor (Z.shiftl buffer 8) (Z.lor (Z.land value 0x7F) 0x80))
             (Z.shiftr value 7)
      else Some buffer
  end.

(** Second loop: [while True: bytes_out.append(buffer & 0xFF);
    if buffer & 0x80: buffer >>= 8 else: break]. *)
Fixpoint emit_bytes (fuel : nat) (buffer : Z) (bytes_out : list Z)
  : option (list Z) :=
  match fuel with
  | O => None
  | S fuel' =>
      let bytes_out := bytes_out ++ [Z.land buffer 0xFF] in
      if Z.land buffer 0x80 =? 0
      then Some bytes_out
      else emit_bytes fuel' (Z.shiftr buffer 8) bytes_out
  end.

Definition encode_var_len_fuel (fuel : nat) (value : Z)
  : option (result bytes) :=
  match pack_groups fuel (Z.land value 0x7F) (Z.shiftr value 7) with
  | None => None
  | Some buffer =>
      match emit_bytes fuel buffer [] with
      | None => None
      | Some bytes_out => Some (py_bytes bytes_out)
      end
  end.

(** Fuel that always suffices: both loops run at most once per seven bits of
    [value] (see [encode_var_len_fuel_enough]). *)
Definition var_len_fuel (value : Z) : nat := Z.to_nat (Z.log2 value) + 2.

(** The method itself.  The [None] branch is dead code of the model. *)
Definition encode_var_len (value : Z) : result bytes :=
  match encode_var_len_fuel (var_len_fuel value) value with
  | Some r => r
  | None => Returned []
  end.

(** ** The variable-length quantity, as the specification words it *)

(** Value of a sequence of 7-bit groups, most significant first. *)
Definition be128 (groups : list Z) : Z :=
  fold_left (fun acc g => acc * 128 + g) groups 0.

(** Continuation bit on every group but the last. *)
Fixpoint mark_continuation (groups : list Z) : list Z :=
  match groups with
  | [] => []
  | [g] => [g]
  | g :: rest => Z.lor g 0x80 :: mark_continuation rest
  end.

(** [bs] is the variable-length quantity of [v]: the 7-bit groups of [v],
    most significant first and without a leading zero group, the high bit
    set on all but the last. *)
Definition is_vlq (v : Z) (bs : bytes) : Prop :=
  exists groups : list Z,
    groups <> [] /\
    Forall (fun g => 0 <= g < 128) groups /\
    (length groups = 1%nat \/ hd 0 groups <> 0) /\
    be128 groups = v /\
    map Z_of_byte bs = mark_continuation groups.

(** The matching decoder: accumulate the low seven bits of each byte until a
    byte with a clear high bit. *)
Fixpoint decode_var_len_from (acc : Z) (bs : bytes) : option (Z * bytes) :=
  match bs with
  | [] => None
  | b :: rest =>
      let acc' := Z.lor (Z.shiftl acc 7) (Z.land (Z_of_byte b) 0x7F) in
      if Z.land (Z_of_byte b) 0x80 =? 0
      then Some (acc', rest)
      else decode_var_len_from acc' rest
  end.

Definition decode_var_len (bs : bytes) : option (Z * bytes) :=
  decode_var_len_from 0 bs.

(** ** Tracks *)

(** An event is the tuple [(tick, event_bytes)]. *)
Definition event : Type := Z * bytes.

Record Track : Type := mkTrack { events : list event }.

(** [Track.__init__] *)
Definition new_Track : Track := mkTrack [].

(** [Track.add_event] *)
Definition add_event (tick : Z) (event_bytes : bytes) (trk : Track) : Track :=
  mkTrack (events trk ++ [(tick, event_bytes)]).

(** [list.sort(key=lambda ev: ev[0])] is a stable ascending sort on the key.
    Its result is determined by that contract alone (see
    [stable_sort_unique]); it is computed here by stable insertion: an
    element goes in front of the first already placed element whose tick is
    not smaller. *)
Fixpoint insert_event (e : event) (l : list event) : list event :=
  match l with
  | [] => [e]
  | e' :: rest =>
      if fst e <=? fst e' then e :: l else e' :: insert_event e rest
  end.

Definition sort_by_tick (l : list event) : list event :=
  foldr insert_event [] l.

(** [Track.sort_events] *)
Definition sort_events (trk : Track) : Track :=
  mkTrack (sort_by_tick (events trk)).

(** ** The writer object *)

Record MidiWriter : Type := mkMidiWriter {
  ticks_per_quarter : Z;
  tracks : list Track;
  channel_program : gmap Z Z
}.

(** [MidiWriter.__init__] *)
Definition new_MidiWriter : MidiWriter := mkMidiWriter 480 [] ∅.

Definition set_tracks (ts : list Track) (self : MidiWriter) : MidiWriter :=
  mkMidiWriter (ticks_per_quarter self) ts (channel_program self).

(** [MidiWriter.addTrack]: the new state and the returned index. *)
Definition addTrack (self : MidiWriter) : MidiWriter * Z :=
  let self := set_tracks (tracks self ++ [new_Track]) self in
  (self, len (tracks self) - 1).

(** The loop of [_get_track]: [while track_idx >= len(self.tracks): self.addTrack()]. *)
Fixpoint get_track_loop (fuel : nat) (track_idx : Z) (self : MidiWriter)
  : option MidiWriter :=
  match fuel with
  | O => None
  | S fuel' =>
      if track_idx >=? len (tracks self)
      then get_track_loop fuel' track_idx (fst (addTrack self))
      else Some self
  end.

(** Fuel that always suffices for [get_track_loop]: one round per missing
    track and one for the final test (see [get_track_loop_enough]). *)
Definition get_track_fuel (track_idx : Z) (self : MidiWriter) : nat :=
  S (Z.to_nat (track_idx + 1 - len (tracks self))).

(** [self.tracks[track_idx]]: the position the subscript denotes, with
    Python's negative indices. *)
Definition subscript {A : Type} (l : list A) (i : Z) : result nat :=
  if (0 <=? i) && (i <? len l) then Returned (Z.to_nat i)
  else if (i <? 0) && (0 <=? len l + i) then Returned (Z.to_nat (len l + i))
  else Raised IndexError.

(** [MidiWriter._get_track]: the state after the loop and the position of
    the returned track object in [self.tracks].  The [None] branch is dead
    code of the model. *)
Definition _get_track (track_idx : Z) (self : MidiWriter)
  : MidiWriter * result nat :=
  let self :=
    match get_track_loop (get_track_fuel track_idx self) track_idx self with
    | Some self' => self'
    | None => self
    end in
  (self, subscript (tracks self) track_idx).

(** [trk.add_event(tick, event_bytes)] on the track object at position [pos]. *)
Definition add_event_at (pos : nat) (tick : Z) (event_bytes : bytes)
    (self : MidiWriter) : MidiWriter :=
  set_tracks (alter (add_event tick event_bytes) pos (tracks self)) self.

(** What a public method leaves behind: the object, the lines it printed
    and, when an exception left the method, that exception. *)
Record outcome : Type := mkOutcome {
  after : MidiWriter;
  printed : list string;
  raised : option exn
}.

(** [MidiWriter.setChannel] *)
Definition setChannel (channel program : Z) (self : MidiWriter) : outcome :=
  let self :=
    mkMidiWriter (ticks_per_quarter self) (tracks self)
                 (<[channel := program]> (channel_program self)) in
  let '(self, track0) := _get_track 0 self in
  match track0 with
  | Raised e => mkOutcome self [] (Some e)
  | Returned track0 =>
      match py_bytes [Z.lor 0xC0 (Z.land channel 0x0F); Z.land program 0x7F] with
      | Raised e => mkOutcome self [] (Some e)
      | Returned event_bytes =>
          mkOutcome (add_event_at track0 0 event_bytes self) [] None
      end
  end.

(** [str(e)] of a caught exception. *)
Definition exn_message (e : exn) : string :=
  match e with
  | ValueError msg => msg
  | OverflowError => "int too big to convert"
  | IndexError => "list index out of range"
  | StructError => "argument out of range"
  end.

(** Big-endian digits in base 256, [n] of them. *)
Fixpoint be_bytes (n : nat) (v : Z) : list Z :=
  match n with
  | O => []
  | S n' => be_bytes n' (v / 256) ++ [v mod 256]
  end.

(** [v.to_bytes(n, byteorder="big")] (unsigned). *)
Definition to_bytes_big (n : nat) (v : Z) : result bytes :=
  if (v <? 0) || (256 ^ Z.of_nat n <=? v) then Raised OverflowError
  else py_bytes (be_bytes n v).

(** [struct.pack(">h", v)]: signed 16-bit, two's complement, big-endian. *)
Definition struct_pack_h (v : Z) : result bytes :=
  if (-32768 <=? v) && (v <=? 32767) then py_bytes (be_bytes 2 (v mod 65536))
  else Raised StructError.

(** [struct.pack(">I", v)]: unsigned 32-bit, big-endian. *)
Definition struct_pack_I (v : Z) : result bytes :=
  if (0 <=? v) && (v <? 2 ^ 32) then py_bytes (be_bytes 4 v)
  else Raised StructError.

(** The [try] block of [addBPM]. *)
Definition validate_BPM (track start bpm : Z) : result unit :=
  if track <? 0 then Raised (ValueError "Track cannot be less than zero.")
  else if start <? 0 then Raised (ValueError "Start cannot be less than zero.")
  else if bpm <=? 0 then Raised (ValueError "BPM must be greater than zero.")
  else Returned tt.

(** The two lines the [except] block of [addBPM] prints. *)
Definition BPM_warning (e : exn) (track start bpm : Z) : list string :=
  [ "[W] Could not add BPM. Error = " +:+ exn_message e;
    "track=" +:+ str track +:+ ", start=" +:+ str start
      +:+ ", bpm=" +:+ str bpm ].

(** [MidiWriter.addBPM].  [int(60000000 / bpm)] divides in floating point
    and truncates; for an integer [bpm > 0] that is the integer quotient
    truncated toward zero. *)
Definition addBPM (track start bpm : Z) (self : MidiWriter) : outcome :=
  match validate_BPM track start bpm with
  | Raised e => mkOutcome self (BPM_warning e track start bpm) None
  | Returned _ =>
      let tick := start in
      let tempo := Z.quot 60000000 bpm in
      match to_bytes_big 3 tempo with
      | Raised e => mkOutcome self [] (Some e)
      | Returned tempo_bytes =>
          match py_bytes [0xFF; 0x51; 0x03] with
          | Raised e => mkOutcome self [] (Some e)
          | Returned prefix =>
              let meta_event := prefix ++ tempo_bytes in
              let '(self, trk) := _get_track track self in
              match trk with
              | Raised e => mkOutcome self [] (Some e)
              | Returned trk =>
                  mkOutcome (add_event_at trk tick meta_event self) [] None
              end
          end
      end
  end.

(** The [try] block of [addNote]. *)
Definition validate_Note (track channel start duration velocity : Z)
  : result unit :=
  if track <? 0 then
    Raised (ValueError ("[E] Track value '" +:+ str track
              +:+ "' cannot be negative. Expected integer >= 0."))
  else if channel <? 0 then
    Raised (ValueError ("[E] Channel value '" +:+ str channel
              +:+ "' cannot be negative. Expected integer >= 0."))
  else if start <? 0 then
    Raised (ValueError ("[E] Start value '" +:+ str start
              +:+ "' cannot be negative. Expected integer >= 0."))
  else if duration <=? 0 then
    Raised (ValueError ("[E] Duration value '" +:+ str duration
              +:+ "' must be > 0."))
  else if negb ((0 <=? velocity) && (velocity <=? 127)) then
    Raised (ValueError ("[E] Velocity value '" +:+ str velocity
              +:+ "' must be in range [0, 127]."))
  else Returned tt.

(** The two lines the [except] block of [addNote] prints. *)
Definition Note_warning (e : exn)
    (track channel start duration pitch velocity : Z) : list string :=
  [ "[W] Could not add note! Error: " +:+ exn_message e;
    "track=" +:+ str track +:+ ", channel=" +:+ str channel
      +:+ ", start=" +:+ str start +:+ ", duration=" +:+ str duration
      +:+ ", pitch=" +:+ str pitch +:+ ", velocity=" +:+ str velocity ].

(** [MidiWriter.addNote] *)
Definition addNote (track channel start duration pitch velocity : Z)
    (self : MidiWriter) : outcome :=
  match validate_Note track channel start duration velocity with
  | Raised e =>
      mkOutcome self
        (Note_warning e track channel start duration pitch velocity) None
  | Returned _ =>
      let start_tick := start in
      let end_tick := start + duration in
      let '(self, trk) := _get_track track self in
      match trk with
      | Raised e => mkOutcome self [] (Some e)
      | Returned trk =>
          match py_bytes [Z.lor 0x90 (Z.land channel 0x0F);
                          Z.land pitch 0x7F; Z.land velocity 0x7F] with
          | Raised e => mkOutcome self [] (Some e)
          | Returned note_on =>
              let self := add_event_at trk start_tick note_on self in
              match py_bytes [Z.lor 0x80 (Z.land channel 0x0F);
                              Z.land pitch 0x7F; 0] with
              | Raised e => mkOutcome self [] (Some e)
              | Returned note_off =>
                  mkOutcome (add_event_at trk end_tick note_off self) [] None
              end
          end
      end
  end.

(** ** [MidiWriter.save] *)

(** [b"MThd"] and [b"MTrk"] *)
Definition MThd : bytes := [x4d; x54; x68; x64].
Definition MTrk : bytes := [x4d; x54; x72; x6b].

(** The header chunk, lines 241 to 249 of [save]. *)
Definition header_chunk (self : MidiWriter) : result bytes :=
  let num_tracks := len (tracks self) in
  let header_length := 6 in
  let midi_format := if num_tracks >? 1 then 1 else 0 in
  let* f := struct_pack_h midi_format in
  let* n := struct_pack_h num_tracks in
  let* t := struct_pack_h (ticks_per_quarter self) in
  let header_data := f ++ n ++ t in
  let* l := struct_pack_I header_length in
  Returned (MThd ++ l ++ header_data).

(** The inner loop of [save] over the events of one track. *)
Fixpoint render_events (prev_tick : Z) (evs : list event) (track_data : bytes)
  : result bytes :=
  match evs with
  | [] => Returned track_data
  | (tick, ev) :: rest =>
      let delta_ticks := tick - prev_tick in
      let prev_tick := tick in
      let* d := encode_var_len delta_ticks in
      render_events prev_tick rest (track_data ++ d ++ ev)
  end.

(** The payload of a track chunk: the events, then the end-of-track event. *)
Definition track_payload (trk : Track) : result bytes :=
  let* track_data := render_events 0 (events trk) [] in
  let* d := encode_var_len 0 in
  let* eot := py_bytes [0xFF; 0x2F; 0x00] in
  Returned (track_data ++ d ++ eot).

(** One track chunk: [b"MTrk" + struct.pack(">I", len(track_data)) + track_data]. *)
Definition track_chunk (trk : Track) : result bytes :=
  let* track_data := track_payload trk in
  let* l := struct_pack_I (len track_data) in
  Returned (MTrk ++ l ++ track_data).

(** The outer loop of [save] over the tracks. *)
Fixpoint render_tracks (trks : list Track) (track_chunks : bytes)
  : result bytes :=
  match trks with
  | [] => Returned track_chunks
  | trk :: rest =>
      let* c := track_chunk trk in
      render_tracks rest (track_chunks ++ c)
  end.

(** [MidiWriter.save] up to the [open] of its last lines: the object after
    the call (its tracks sorted in place) and [full_data], the bytes handed
    to [f.write], or the exception a [struct.pack] raised before.  Opening
    and writing the file, which the operating system can refuse, is not
    part of the model. *)
Definition save (self : MidiWriter) : MidiWriter * result bytes :=
  let self := set_tracks (map sort_events (tracks self)) self in
  (self,
   let* header_chunk := header_chunk self in
   let* track_chunks := render_tracks (tracks self) [] in
   Returned (header_chunk ++ track_chunks)).

(** The delta times [save] hands to [encode_var_len] for one track. *)
Fixpoint render_deltas (prev_tick : Z) (evs : list event) : list Z :=
  match evs with
  | [] => []
  | (tick, _) :: rest => (tick - prev_tick) :: render_deltas tick rest
  end.

(** ** Sequences of public calls *)

Inductive call : Type :=
  | CallAddTrack
  | CallSetChannel (channel program : Z)
  | CallAddBPM (track start bpm : Z)
  | CallAddNote (track channel start duration pitch velocity : Z)
  | CallSave.

(** One call as the caller sees it.  [save] prints nothing; what it raises
    is what its [struct.pack] calls raise. *)
Definition perform (c : call) (self : MidiWriter) : outcome :=
  match c with
  | CallAddTrack => mkOutcome (fst (addTrack self)) [] None
  | CallSetChannel channel program => setChannel channel program self
  | CallAddBPM track start bpm => addBPM track start bpm self
  | CallAddNote track channel start duration pitch velocity =>
      addNote track channel start duration pitch velocity self
  | CallSave =>
      let '(self, written) := save self in
      mkOutcome self []
        match written with Returned _ => None | Raised e => Some e end
  end.

(** The object after one call; an exception that leaves the call is caught
    by the caller, who goes on with the object as the call left it. *)
Definition do_call (c : call) (self : MidiWriter) : MidiWriter :=
  after (perform c self).

Definition do_calls (cs : list call) (self : MidiWriter) : MidiWriter :=
  fold_left (fun self c => do_call c self) cs self.

(** ** [midi_test.py]: the drum patterns *)

(** Constants of [MidiTest]. *)
Definition TICKS_PER_QUARTER : Z := 480.
Definition DRUM_CHANNEL : Z := 9.
Definition DEFAULT_VELOCITY : Z := 120.
Definition DEFAULT_DRUM_PITCH : Z := 32.

(** [TICK_PER_16TH = TICKS_PER_QUARTER / 4] is the float [120.0];
    [int(TICK_PER_16TH)] is 120 and [int(i * TICK_PER_16TH)] is [120 * i],
    the product being exact for every index a string can have. *)
Definition TICK_PER_16TH : Z := TICKS_PER_QUARTER / 4.

(** The inner loop of [create_drum_midi] over the characters of one
    pattern: the writer, the lines printed so far and the exception that
    ended the loop, if any. *)
Fixpoint drum_pattern_loop (pattern : list ascii) (drum_pitch i : Z)
    (myMidi : MidiWriter) (out : list string)
  : MidiWriter * list string * option exn :=
  match pattern with
  | [] => (myMidi, out, None)
  | c :: rest =>
      let r :=
        if Ascii.eqb c "x"
        then addNote 0 DRUM_CHANNEL (i * TICK_PER_16TH) TICK_PER_16TH
                     drum_pitch DEFAULT_VELOCITY myMidi
        else mkOutcome myMidi [] None in
      match raised r with
      | Some e => (after r, out ++ printed r, Some e)
      | None =>
          drum_pattern_loop rest drum_pitch
            (i + (if negb (Ascii.eqb c "|") then 1 else 0))
            (after r) (out ++ printed r)
      end
  end.

(** The outer loop over [patterns.items()]. *)
Fixpoint drum_patterns_loop (patterns : list (string * Z))
    (myMidi : MidiWriter) (out : list string)
  : MidiWriter * list string * option exn :=
  match patterns with
  | [] => (myMidi, out, None)
  | (pattern, drum_pitch) :: rest =>
      let '(myMidi, out, err) :=
        drum_pattern_loop (list_ascii_of_string pattern) drum_pitch 0
                          myMidi out in
      match err with
      | Some e => (myMidi, out, Some e)
      | None => drum_patterns_loop rest myMidi out
      end
  end.

(** What a run of a test function leaves: the lines printed, the file
    written (if any) and the exception that ended it (if any). *)
Record run : Type := mkRun {
  stdout : list string;
  file : option bytes;
  error : option exn
}.

(** [MidiTest.create_drum_midi] *)
Definition create_drum_midi (filename : string) (bpm : Z)
    (patterns : list (string * Z)) : run :=
  let myMidi := new_MidiWriter in
  let r := addBPM 0 0 bpm myMidi in
  match raised r with
  | Some e => mkRun (printed r) None (Some e)
  | None =>
      let '(myMidi, out, err) :=
        drum_patterns_loop patterns (after r) (printed r) in
      match err with
      | Some e => mkRun out None (Some e)
      | None =>
          match snd (save myMidi) with
          | Raised e => mkRun out None (Some e)
          | Returned written =>
              mkRun (out ++ ["Successfully created " +:+ filename])
                    (Some written) None
          end
      end
  end.

(** ** The name tables *)

(** A dictionary display: later items override earlier ones of the same
    key. *)
Definition py_dict (items : list (string * Z)) : gmap string Z :=
  foldl (fun m kv => <[fst kv := snd kv]> m) ∅ items.

(** [d.get(key, default)] *)
Definition dict_get (d : gmap string Z) (key : string) (default_value : Z)
  : Z :=
  default default_value (d !! key).

(** The items of [ProgramMapping.NAME_TO_NUMBER] of [program_mapping.py], in
    the order of the dictionary display. *)
Definition ProgramMapping_NAME_TO_NUMBER : list (string * Z) :=
  [
    ("acoustic_grand_piano", 0);
    ("bright_acoustic_piano", 1);
    ("electric_grand_piano", 2);
    ("honky-tonk_piano", 3);
    ("rhodes_piano", 4);
    ("chorused_piano", 5);
    ("harpsichord", 6);
    ("clavinet", 7);
    ("celesta", 8);
    ("glockenspiel", 9);
    ("music_box", 10);
    ("vibraphone", 11);
    ("marimba", 12);
    ("xylophone", 13);
    ("tubular_bells", 14);
    ("dulcimer", 15);
    ("hammond_organ", 16);
    ("percussive_organ", 17);
    ("rock_organ", 18);
    ("church_organ", 19);
    ("reed_organ", 20);
    ("accordion", 21);
    ("harmonica", 22);
    ("tango_accordion", 23);
    ("acoustic_guitar_(nylon)", 24);
    ("acoustic_guitar_(steel)", 25);
    ("electric_guitar_(jazz)", 26);
    ("electric_guitar_(clean)", 27);
    ("electric_guitar_(muted)", 28);
    ("overdriven_guitar", 29);
    ("distortion_guitar", 30);
    ("guitar_harmonics", 31);
    ("acoustic_bass", 32);
    ("electric_bass_(finger)", 33);
    ("electric_bass_(pick)", 34);
    ("fretless_bass", 35);
    ("slap_bass_1", 36);
    ("slap_bass_2", 37);
    ("synth_bass_1", 38);
    ("synth_bass_2", 39);
    ("violin", 40);
    ("viola", 41);
    ("cello", 42);
    ("contrabass", 43);
    ("tremolo_strings", 44);
    ("pizzicato_strings", 45);
    ("orchestral_harp", 46);
    ("timpani", 47);
    ("string_ensemble_1", 48);
    ("string_ensemble_2", 49);
    ("synth_strings_1", 50);
    ("synth_strings_2", 51);
    ("choir_aahs", 52);
    ("voice_oohs", 53);
    ("synth_voice", 54);
    ("orchestra_hit", 55);
    ("trumpet", 56);
    ("trombone", 57);
    ("tuba", 58);
    ("muted_trumpet", 59);
    ("french_horn", 60);
    ("brass_section", 61);
    ("synth_brass_1", 62);
    ("synth_brass_2", 63);
    ("soprano_sax", 64);
    ("alto_sax", 65);
    ("tenor_sax", 66);
    ("baritone_sax", 67);
    ("oboe", 68);
    ("english_horn", 69);
    ("bassoon", 70);
    ("clarinet", 71);
    ("piccolo", 72);
    ("flute", 73);
    ("recorder", 74);
    ("pan_flute", 75);
    ("bottle_blow", 76);
    ("shakuhachi", 77);
    ("whistle", 78);
    ("ocarina", 79);
    ("lead_1_(square)", 80);
    ("lead_2_(sawtooth)", 81);
    ("lead_3_(calliope_lead)", 82);
    ("lead_4_(chiffer_lead)", 83);
    ("lead_5_(charang)", 84);
    ("lead_6_(voice)", 85);
    ("lead_7_(fifths)", 86);
    ("lead_8_(brass_+_lead)", 87);
    ("pad_1_(new_age)", 88);
    ("pad_2_(warm)", 89);
    ("pad_3_(polysynth)", 90);
    ("pad_4_(choir)", 91);
    ("pad_5_(bowed)", 92);
    ("pad_6_(metallic)", 93);
    ("pad_7_(halo)", 94);
    ("pad_8_(sweep)", 95);
    ("fx_1_(rain)", 96);
    ("fx_2_(soundtrack)", 97);
    ("fx_3_(crystal)", 98);
    ("fx_4_(atmosphere)", 99);
    ("fx_5_(brightness)", 100);
    ("fx_6_(goblins)", 101);
    ("fx_7_(echoes)", 102);
    ("fx_8_(sci-fi)", 103);
    ("sitar", 104);
    ("banjo", 105);
    ("shamisen", 106);
    ("koto", 107);
    ("kalimba", 108);
    ("bagpipe", 109);
    ("fiddle", 110);
    ("shana", 111);
    ("tinkle_bell", 112);
    ("agogo", 113);
    ("steel_drums", 114);
    ("woodblock", 115);
    ("taiko_drum", 116);
    ("melodic_tom", 117);
    ("synth_drum", 118);
    ("cymbal_reverse", 119);
    ("guitar_fret_noise", 120);
    ("breath_noise", 121);
    ("seashore", 122);
    ("bird_tweet", 123);
    ("telephone_ring", 124);
    ("helicopter", 125);
    ("applause", 126);
    ("gunshot", 127)
  ]%string.

(** The items of [DrumMapping.NAME_TO_NUMBER] of [drum_mapping.py]. *)
Definition DrumMapping_NAME_TO_NUMBER : list (string * Z) :=
  [
    ("laser", 27);
    ("whip", 28);
    ("scratch_push", 29);
    ("scratch_pull", 30);
    ("sticks", 31);
    ("metronome_click", 32);
    ("metronome_bell", 33);
    ("bass_drum", 34);
    ("kick_drum", 35);
    ("bass_drum_1", 36);
    ("snare_cross_stick", 37);
    ("snare_drum_1", 38);
    ("hand_clap", 39);
    ("snare_drum_2", 40);
    ("tom_1", 41);
    ("cymbal_hi_hat_closed", 42);
    ("tom_2", 43);
    ("cymbal_hi_hat_pedal", 44);
    ("tom_3", 45);
    ("cymbal_hi_hat_open", 46);
    ("tom_4", 47);
    ("tom_5", 48);
    ("cymbal_crash_1", 49);
    ("tom_6", 50);
    ("cymbal_ride_1", 51);
    ("cymbal_china", 52);
    ("cymbal_ride_bell", 53);
    ("tambourine", 54);
    ("cymbal_splash", 55);
    ("cowbell", 56);
    ("cymbal_crash_2", 57);
    ("vibraslap", 58);
    ("cymbal_ride_2", 59);
    ("high_bongo", 60);
    ("low_bongo", 61);
    ("conga_dead_stroke", 62);
    ("conga", 63);
    ("high_timbale", 64);
    ("low_timbale", 65);
    ("high_agogo", 66);
    ("low_agogo", 67);
    ("cabasa", 68);
    ("maracas", 69);
    ("whistle_short", 70);
    ("whistle_long", 71);
    ("guiro_short", 72);
    ("guiro_long", 73);
    ("claves", 74);
    ("high_woodblock", 75);
    ("low_woodblock", 76);
    ("cuica_high", 77);
    ("cuica_low", 78);
    ("triangle_mute", 79);
    ("triangle_open", 80);
    ("shaker", 81);
    ("sleigh_bell", 82);
    ("bell_tree", 83);
    ("castanets", 84);
    ("surdu_dead_stroke", 85);
    ("surdu", 86);
    ("snare_drum_rod", 87);
    ("ocean_drum", 88);
    ("snare_drum_brush", 89)
  ]%string.

(** The items of [MidiTest.DRUMS] of [midi_test.py]. *)
Definition MidiTest_DRUMS : list (string * Z) :=
  [
    ("kick_drum", 35);
    ("snare_drum_rim", 37);
    ("snare_drum", 38);
    ("cymbal_hihat_closed", 42);
    ("cymbal_hihat_open", 46);
    ("cymbal_crash1", 49);
    ("cymbal_crash2", 57);
    ("cymbal_china", 52);
    ("cymbal_ride", 51);
    ("cymbal_ride_bell", 53);
    ("cymbal_splash", 55);
    ("tom1", 41);
    ("tom2", 43);
    ("tom3", 45);
    ("tom4", 47);
    ("tom5", 50);
    ("tambourine", 54);
    ("cowbell", 56)
  ]%string.

(** ** Auxiliary definitions of the proofs *)

(** The 7-bit groups of a positive [v], most significant first and without
    a leading zero group ([n] bounds their number); none for [v <= 0]. *)
Fixpoint min_groups (n : nat) (v : Z) : list Z :=
  match n with
  | O => []
  | S n' => if 0 <? v then min_groups n' (v / 128) ++ [v mod 128] else []
  end.

(** The groups of the variable-length quantity of [v]. *)
Definition groups_of (v : Z) : list Z :=
  min_groups (Z.to_nat (Z.log2 v) + 1) (v / 128) ++ [v mod 128].

Definition set_continuation (g : Z) : Z := Z.lor g 0x80.

(** Ascending order on the sort key, and the events of one tick in the order
    a list has them. *)
Definition tick_le (e1 e2 : event) : Prop := fst e1 <= fst e2.

Definition at_tick (t : Z) (l : list event) : list event :=
  List.filter (fun e => fst e =? t) l.

(** The calls validation rejects, in the words of the specification. *)
Definition rejected (c : call) : bool :=
  match c with
  | CallAddNote track channel start duration _ velocity =>
      (track <? 0) || (channel <? 0) || (start <? 0) || (duration <=? 0)
      || (velocity <? 0) || (127 <? velocity)
  | CallAddBPM track start bpm => (track <? 0) || (start <? 0) || (bpm <=? 0)
  | _ => false
  end.

(** The track index a mutator refers to. *)
Definition target_track (c : call) : option Z :=
  match c with
  | CallSetChannel _ _ => Some 0
  | CallAddBPM track _ _ => Some track
  | CallAddNote track _ _ _ _ _ => Some track
  | _ => None
  end.

(** The bytes [encode_var_len] returns. *)
Definition var_len_bytes (value : Z) : bytes :=
  match encode_var_len value with
  | Returned bs => bs
  | Raised _ => []
  end.

(** Every event of every track has a tick that is not negative. *)
Definition nonneg_track (trk : Track) : Prop :=
  Forall (fun e : event => 0 <= fst e) (events trk).

Definition ticks_nonneg (self : MidiWriter) : Prop :=
  Forall nonneg_track (tracks self).

(** The track list after [_get_track track_idx]: the missing tracks are
    appended, empty. *)
Definition extend_to (track_idx : Z) (trks : list Track) : list Track :=
  trks ++ replicate (Z.to_nat (track_idx + 1 - len trks)) new_Track.

(** [trks'] is [trks] extended so that index [t] exists: as many tracks as
    the larger of the old count and [t + 1], every old track other than [t]
    in its place and untouched, and every track between the old end and [t]
    new and empty. *)
Definition extends_to (t : Z) (trks trks' : list Track) : Prop :=
  len trks' = Z.max (len trks) (t + 1) /\
  (forall (i : nat) (trk : Track),
     trks !! i = Some trk -> i <> Z.to_nat t -> trks' !! i = Some trk) /\
  (forall i : nat,
     (length trks <= i < Z.to_nat t)%nat -> trks' !! i = Some new_Track).

(** [trks'] has every track of [trks], at the same index and with at least
    the same events. *)
Definition grows (trks trks' : list Track) : Prop :=
  (length trks <= length trks')%nat /\
  forall (i : nat) (trk : Track),
    trks !! i = Some trk ->
    exists trk', trks' !! i = Some trk' /\ events trk ⊆+ events trk'.

(** The track at index [i], a new one where the list has none. *)
Definition track_at (trks : list Track) (i : nat) : Track :=
  default new_Track (trks !! i).

(** The track list after a mutator that returned: extended to [t], then the
    events [evs] appended to track [t]. *)
Definition appended_to (t : Z) (evs : list event) (trks : list Track)
  : list Track :=
  alter (fun trk => mkTrack (events trk ++ evs)) (Z.to_nat t)
        (extend_to t trks).

(** The payload [save] builds for a track: per event the encoded delta and
    the event bytes, then the end-of-track event. *)
Definition track_bytes (trk : Track) : bytes :=
  concat (zip_with (fun d (e : event) => var_len_bytes d ++ snd e)
            (render_deltas 0 (events trk)) (events trk))
  ++ [x00; xff; x2f; x00].

(** A reader of track payloads, written from the Standard MIDI File format
    and independent of the writer.  The number of data bytes of a channel
    message follows from its status byte: two for [8n], [9n], [An], [Bn] and
    [En], one for [Cn] and [Dn]. *)
Definition event_data_length (status : byte) : option nat :=
  let s := Z_of_byte status in
  if (0x80 <=? s) && (s <? 0xC0) then Some 2%nat
  else if (0xC0 <=? s) && (s <? 0xE0) then Some 1%nat
  else if (0xE0 <=? s) && (s <? 0xF0) then Some 2%nat
  else None.

(** Each event is a variable-length delta and a message.  A meta message is
    [FF], a type, a variable-length count and that many bytes; the meta
    message of type [2F] ends the track and must be the last thing in the
    payload.  Running status and system-exclusive messages are not read.
    The tick of an event is the sum of the deltas up to it.  [fuel] bounds
    the number of events. *)
Fixpoint parse_track (fuel : nat) (prev_tick : Z) (data : bytes)
  : option (list event) :=
  match fuel with
  | O => None
  | S fuel' =>
      match decode_var_len data with
      | None => None
      | Some (delta, message) =>
          let tick := prev_tick + delta in
          match message with
          | [] => None
          | status :: after_status =>
              if Z_of_byte status =? 0xFF then
                match after_status with
                | [] => None
                | type :: after_type =>
                    match decode_var_len after_type with
                    | None => None
                    | Some (count, body) =>
                        if Z_of_byte type =? 0x2F then
                          match body with
                          | [] => if count =? 0 then Some [] else None
                          | _ :: _ => None
                          end
                        else if Z.of_nat (length body) <? count then None
                        else
                          let head :=
                            take (length message - length body) message in
                          let n := Z.to_nat count in
                          match parse_track fuel' tick (drop n body) with
                          | None => None
                          | Some evs =>
                              Some ((tick, head ++ take n body) :: evs)
                          end
                    end
                end
              else
                match event_data_length status with
                | None => None
                | Some n =>
                    if (length after_status <? n)%nat then None
                    else
                      match parse_track fuel' tick (drop n after_status) with
                      | None => None
                      | Some evs =>
                          Some ((tick, status :: take n after_status) :: evs)
                      end
                end
          end
      end
  end.

(** The messages the mutators produce: note-off and note-on (a status from
    [80] to [9F] and two data bytes), program change (a status from [C0] to
    [CF] and one data byte), and the tempo meta message. *)
Definition writer_message (bs : bytes) : Prop :=
  (exists s d1 d2 : byte, bs = [s; d1; d2] /\ 0x80 <= Z_of_byte s < 0xA0) \/
  (exists s d : byte, bs = [s; d] /\ 0xC0 <= Z_of_byte s < 0xD0) \/
  (exists a b c : byte, bs = [xff; x51; x03; a; b; c]).

(** An event as a reachable writer holds it. *)
Definition writer_event (e : event) : Prop :=
  0 <= fst e /\ writer_message (snd e).

(** Sum of a list of integers. *)
Definition total (l : list Z) : Z := foldr Z.add 0 l.

(** The events [drum_pattern_loop] adds for a pattern that starts at step
    [i]: for every [x] a note-on at the tick of its step and a note-off one
    sixteenth later, on channel 9; [|] is no step. *)
Definition pitch_byte (pitch : Z) : byte :=
  default x00 (byte_of_Z (Z.land pitch 0x7F)).

Fixpoint drum_events (pattern : list ascii) (drum_pitch i : Z) : list event :=
  match pattern with
  | [] => []
  | c :: rest =>
      (if Ascii.eqb c "x"
       then [(120 * i, [x99; pitch_byte drum_pitch; x78]);
             (120 * i + 120, [x89; pitch_byte drum_pitch; x00])]
       else [])
      ++ drum_events rest drum_pitch
           (if Ascii.eqb c "|" then i else i + 1)
  end.

(** Track 0 with the events [evs] added; nothing happens, and no track is
    created, when there are none. *)
Definition with_events (evs : list event) (trks : list Track) : list Track :=
  match evs with
  | [] => trks
  | _ => appended_to 0 evs trks
  end.

(** The events of all patterns, every pattern starting again at step 0. *)
Definition all_drum_events (patterns : list (string * Z)) : list event :=
  concat (map (fun kv : string * Z =>
                 drum_events (list_ascii_of_string (fst kv)) (snd kv) 0)
              patterns).

(** ** Sanity checks of the embedding *)

Example encode_480 : encode_var_len 480 = Returned [x83; x60].
Proof. reflexivity. Qed.

Example encode_2_28 : encode_var_len 268435455 = Returned [xff; xff; xff; x7f].
Proof. reflexivity. Qed.

Example warning_lines :
  printed (addNote 0 0 0 0 60 120 new_MidiWriter) =
  [ "[W] Could not add note! Error: [E] Duration value '0' must be > 0.";
    "track=0, channel=0, start=0, duration=0, pitch=60, velocity=120" ]%string.
Proof. reflexivity. Qed.

Example parse_track_meta_text :
  parse_track 3 0 [x00; xff; x01; x02; x41; x42; x05; xff; x2f; x00] =
  Some [(0, [xff; x01; x02; x41; x42])].
Proof. reflexivity. Qed.

Example parse_track_rejects_trailing_bytes :
  parse_track 9 0 [x00; x90; x3c; x78; x00; xff; x2f; x00; x00] = None.
Proof. reflexivity. Qed.

(** * Verification *)

(** ** Bytes *)

Lemma byte_of_Z_range (z : Z) :
  0 <= z < 256 -> exists b, byte_of_Z z = Some b /\ Z_of_byte b = z.
Proof.
  intros Hz. unfold byte_of_Z, Z_of_byte.
  destruct (Z.ltb_spec z 0) as [Hneg | _]; [lia |].
  destruct (Byte.of_N (Z.to_N z)) as [b |] eqn:Hb.
  - exists b. split; [reflexivity |].
    apply Byte.to_of_N in Hb. rewrite Hb. lia.
  - apply Byte.of_N_None_iff in Hb. lia.
Qed.

Lemma Z_of_byte_range (b : byte) : 0 <= Z_of_byte b < 256.
Proof.
  unfold Z_of_byte. pose proof (Byte.to_N_bounded b). lia.
Qed.

Lemma py_bytes_range (items : list Z) :
  Forall (fun z => 0 <= z < 256) items ->
  exists bs, py_bytes items = Returned bs /\ map Z_of_byte bs = items.
Proof.
  induction 1 as [| z rest Hz _ IH]; simpl.
  - exists []. split; reflexivity.
  - destruct (byte_of_Z_range z Hz) as (b & -> & Hb).
    destruct IH as (bs & -> & Hbs). simpl.
    exists (b :: bs). split; [reflexivity |]. simpl. congruence.
Qed.

(** ** Bit-level facts behind the two loops of [encode_var_len] *)

Section Bits.

Lemma land_shiftl_low (a g n : Z) :
  0 <= n -> 0 <= g < 2 ^ n -> Z.land (Z.shiftl a n) g = 0.
Proof.
  intros Hn Hg.
  rewrite <- (Z.mod_small g (2 ^ n)) by lia.
  rewrite <- (Z.land_ones g n) by lia.
  rewrite (Z.land_comm g), Z.land_assoc, (Z.land_ones _ n) by lia.
  rewrite Z.shiftl_mul_pow2 by lia.
  rewrite Z.mod_mul by lia. apply Z.land_0_l.
Qed.

Lemma lor_shiftl_add (a g n : Z) :
  0 <= n -> 0 <= g < 2 ^ n -> Z.lor (Z.shiftl a n) g = a * 2 ^ n + g.
Proof.
  intros Hn Hg.
  pose proof (Z.add_lor_land (Z.shiftl a n) g) as H.
  rewrite land_shiftl_low in H by assumption.
  rewrite Z.shiftl_mul_pow2 in H |- * by lia. lia.
Qed.

Lemma land_7F (v : Z) : Z.land v 0x7F = v mod 128.
Proof. change 0x7F with (Z.ones 7). rewrite Z.land_ones by lia. reflexivity. Qed.

Lemma shiftr_7 (v : Z) : Z.shiftr v 7 = v / 128.
Proof. rewrite Z.shiftr_div_pow2 by lia. reflexivity. Qed.

Variable g : Z.
Hypothesis g_range : 0 <= g < 128.

Lemma group_land_7F : Z.land g 0x7F = g.
Proof. rewrite land_7F. apply Z.mod_small. lia. Qed.

(** A group without the continuation bit is a byte that ends the loop. *)
Lemma group_land_FF : Z.land g 0xFF = g.
Proof.
  rewrite <- group_land_7F at 1. rewrite <- Z.land_assoc.
  change (Z.land 0x7F 0xFF) with 0x7F. apply group_land_7F.
Qed.

Lemma group_land_80 : Z.land g 0x80 = 0.
Proof.
  rewrite <- group_land_7F. rewrite <- Z.land_assoc.
  change (Z.land 0x7F 0x80) with 0. apply Z.land_0_r.
Qed.

(** A group with the continuation bit. *)
Lemma cont_range : 128 <= Z.lor g 0x80 < 256.
Proof.
  rewrite Z.lor_comm.
  change (Z.lor 0x80 g) with (Z.lor (Z.shiftl 1 7) g).
  rewrite lor_shiftl_add by (cbn; lia). change (2 ^ 7) with 128. lia.
Qed.

Lemma cont_land_7F : Z.land (Z.lor g 0x80) 0x7F = g.
Proof.
  rewrite Z.land_lor_distr_l. change (Z.land 0x80 0x7F) with 0.
  rewrite Z.lor_0_r. apply group_land_7F.
Qed.

Lemma cont_land_80 : Z.land (Z.lor g 0x80) 0x80 = 0x80.
Proof.
  rewrite Z.land_lor_distr_l, group_land_80. reflexivity.
Qed.

Variable buffer : Z.

(** The buffer after one round of the first loop, and what the second loop
  reads back from it. *)
Lemma pushed_eq :
Z.lor (Z.shiftl buffer 8) (Z.lor g 0x80) = buffer * 256 + Z.lor g 0x80.
Proof.
pose proof cont_range.
rewrite lor_shiftl_add by (cbn; lia). reflexivity.
Qed.

Lemma pushed_land_FF :
Z.land (Z.lor (Z.shiftl buffer 8) (Z.lor g 0x80)) 0xFF = Z.lor g 0x80.
Proof.
rewrite pushed_eq. pose proof cont_range.
change 0xFF with (Z.ones 8). rewrite Z.land_ones by lia.
change (2 ^ 8) with 256.
rewrite Z.add_comm, Z.mod_add by lia. apply Z.mod_small. lia.
Qed.

Lemma pushed_land_80 :
Z.land (Z.lor (Z.shiftl buffer 8) (Z.lor g 0x80)) 0x80 = 0x80.
Proof.
change 0x80 with (Z.land 0xFF 0x80) at 2.
rewrite Z.land_assoc, pushed_land_FF. apply cont_land_80.
Qed.

Lemma pushed_shiftr :
Z.shiftr (Z.lor (Z.shiftl buffer 8) (Z.lor g 0x80)) 8 = buffer.
Proof.
rewrite pushed_eq. pose proof cont_range.
rewrite Z.shiftr_div_pow2 by lia. change (2 ^ 8) with 256.
rewrite Z.add_comm, Z.div_add by lia.
rewrite Z.div_small by lia. lia.
Qed.

End Bits.

(** ** The two loops of [encode_var_len] *)

Lemma min_groups_range (n : nat) (v : Z) :
  Forall (fun g => 0 <= g < 128) (min_groups n v).
Proof.
  revert v. induction n as [| n IH]; intros v; simpl; [constructor |].
  destruct (0 <? v); [| constructor].
  apply Forall_app. split; [apply IH |].
  constructor; [| constructor]. apply Z.mod_pos_bound. lia.
Qed.

Lemma pow128_S (n : nat) : 128 ^ Z.of_nat (S n) = 128 * 128 ^ Z.of_nat n.
Proof. rewrite Nat2Z.inj_succ, Z.pow_succ_r by lia. reflexivity. Qed.

Lemma div128_lt (n : nat) (v : Z) :
  v < 128 ^ Z.of_nat (S n) -> v / 128 < 128 ^ Z.of_nat n.
Proof.
  rewrite pow128_S. intros H. apply Z.div_lt_upper_bound; lia.
Qed.

(** The first loop terminates within [n] rounds when [value < 128 ^ n], and
    the second loop reads the groups it packed back out of the buffer, the
    most significant first, before it goes on with the initial buffer. *)
Lemma pack_then_emit (n : nat) :
  forall value buffer : Z,
    value < 128 ^ Z.of_nat n ->
    exists buffer' : Z,
      (forall fuel, (n < fuel)%nat ->
         pack_groups fuel buffer value = Some buffer') /\
      (forall fuel bytes_out,
         emit_bytes (length (min_groups n value) + fuel) buffer' bytes_out =
         emit_bytes fuel buffer
           (bytes_out ++ map set_continuation (min_groups n value))).
Proof.
  induction n as [| n IH]; intros value buffer Hlt.
  - exists buffer. split.
    + intros [| fuel] Hf; [lia |]. simpl.
      destruct (Z.ltb_spec 0 value); [simpl in Hlt; lia | reflexivity].
    + intros fuel bytes_out. simpl. rewrite app_nil_r. reflexivity.
  - destruct (Z.ltb_spec 0 value) as [Hpos | Hnonpos].
    + pose proof (Z.mod_pos_bound value 128 ltac:(lia)) as Hg.
      destruct (IH (value / 128)
                  (Z.lor (Z.shiftl buffer 8) (set_continuation (value mod 128)))
                  (div128_lt n value Hlt)) as (buffer' & Hpack & Hemit).
      exists buffer'. split.
      * intros [| fuel] Hf; [lia |]. simpl.
        destruct (Z.ltb_spec 0 value); [| lia].
        rewrite land_7F, shiftr_7. apply Hpack. lia.
      * intros fuel bytes_out. simpl min_groups.
        destruct (Z.ltb_spec 0 value); [| lia].
        rewrite length_app, map_app. simpl length.
        replace (length (min_groups n (value / 128)) + 1 + fuel)%nat
          with (length (min_groups n (value / 128)) + S fuel)%nat by lia.
        rewrite Hemit. simpl emit_bytes. unfold set_continuation.
        rewrite pushed_land_FF, pushed_land_80, pushed_shiftr by assumption.
        simpl. rewrite <- app_assoc. reflexivity.
    + exists buffer. split.
      * intros [| fuel] Hf; [lia |]. simpl.
        destruct (Z.ltb_spec 0 value); [lia | reflexivity].
      * intros fuel bytes_out. simpl.
        destruct (Z.ltb_spec 0 value); [lia |].
        simpl. rewrite app_nil_r. reflexivity.
Qed.

Lemma min_groups_length (n : nat) (v : Z) : (length (min_groups n v) <= n)%nat.
Proof.
  revert v. induction n as [| n IH]; intros v; simpl; [lia |].
  destruct (0 <? v); simpl; [| lia].
  rewrite length_app. simpl. specialize (IH (v / 128)). lia.
Qed.

Lemma emit_bytes_more (fuel extra : nat) (buffer : Z) (bytes_out out : list Z) :
  emit_bytes fuel buffer bytes_out = Some out ->
  emit_bytes (fuel + extra) buffer bytes_out = Some out.
Proof.
  revert buffer bytes_out. induction fuel as [| fuel IH]; intros buffer bytes_out.
  - discriminate.
  - simpl. destruct (Z.land buffer 128 =? 0); [trivial | apply IH].
Qed.

(** What [encode_var_len] computes, for every integer and every sufficient
    fuel. *)
Lemma encode_var_len_fuel_groups (n fuel : nat) (value : Z) :
  value / 128 < 128 ^ Z.of_nat n -> (n < fuel)%nat ->
  encode_var_len_fuel fuel value =
  Some (py_bytes (map set_continuation (min_groups n (value / 128))
                  ++ [value mod 128])).
Proof.
  intros Hlt Hfuel. unfold encode_var_len_fuel.
  rewrite land_7F, shiftr_7.
  destruct (pack_then_emit n (value / 128) (value mod 128) Hlt)
    as (buffer' & Hpack & Hemit).
  rewrite (Hpack fuel Hfuel).
  pose proof (Z.mod_pos_bound value 128 ltac:(lia)) as Hg.
  pose proof (min_groups_length n (value / 128)) as Hlen.
  replace fuel
    with ((length (min_groups n (value / 128)) + 1)
          + (fuel - length (min_groups n (value / 128)) - 1))%nat by lia.
  rewrite (emit_bytes_more _ _ _ _
             (map set_continuation (min_groups n (value / 128))
              ++ [value mod 128])); [reflexivity |].
  rewrite Hemit. simpl.
  rewrite group_land_FF, group_land_80 by assumption. reflexivity.
Qed.

Lemma log2_bound (value : Z) :
  value / 128 < 128 ^ Z.of_nat (Z.to_nat (Z.log2 value) + 1).
Proof.
  destruct (Z.le_gt_cases value 0) as [Hle | Hpos].
  - assert (value / 128 <= 0) by (apply Z.div_le_upper_bound; lia).
    assert (0 < 128 ^ Z.of_nat (Z.to_nat (Z.log2 value) + 1))
      by (apply Z.pow_pos_nonneg; lia).
    lia.
  - pose proof (Z.log2_nonneg value) as Hlog.
    pose proof (Z.log2_spec value Hpos) as [_ Hup].
    rewrite Nat2Z.inj_add, Z2Nat.id by assumption.
    change (Z.of_nat 1) with 1.
    assert (2 ^ Z.succ (Z.log2 value) <= 128 ^ (Z.log2 value + 1)).
    { unfold Z.succ. apply Z.pow_le_mono_l. lia. }
    assert (value / 128 <= value).
    { apply Z.div_le_upper_bound; lia. }
    lia.
Qed.

(** Termination of [encode_var_len]: the fuel of the model is never
    exhausted, and more fuel does not change the result. *)
Lemma encode_var_len_fuel_enough (value : Z) (fuel : nat) :
  (var_len_fuel value <= fuel)%nat ->
  encode_var_len_fuel fuel value = Some (encode_var_len value).
Proof.
  intros Hfuel. unfold encode_var_len, var_len_fuel in *.
  rewrite (encode_var_len_fuel_groups (Z.to_nat (Z.log2 value) + 1)
             (Z.to_nat (Z.log2 value) + 2)) by (apply log2_bound || lia).
  apply encode_var_len_fuel_groups; [apply log2_bound | lia].
Qed.

Lemma mark_continuation_snoc (groups : list Z) (g : Z) :
  mark_continuation (groups ++ [g]) = map set_continuation groups ++ [g].
Proof.
  induction groups as [| g' rest IH]; [reflexivity |].
  simpl app. simpl map. rewrite <- IH.
  destruct rest; reflexivity.
Qed.

Lemma encode_var_len_groups (value : Z) :
  encode_var_len value = py_bytes (mark_continuation (groups_of value)).
Proof.
  unfold encode_var_len, var_len_fuel, groups_of.
  rewrite (encode_var_len_fuel_groups (Z.to_nat (Z.log2 value) + 1))
    by (apply log2_bound || lia).
  rewrite mark_continuation_snoc. reflexivity.
Qed.

Lemma groups_of_range (value : Z) :
  Forall (fun g => 0 <= g < 128) (groups_of value).
Proof.
  apply Forall_app. split; [apply min_groups_range |].
  constructor; [| constructor]. apply Z.mod_pos_bound. lia.
Qed.

Lemma mark_continuation_range (groups : list Z) :
  Forall (fun g => 0 <= g < 128) groups ->
  Forall (fun z => 0 <= z < 256) (mark_continuation groups).
Proof.
  induction 1 as [| g rest Hg Hrest IH]; [constructor |].
  destruct rest as [| g' rest'].
  - constructor; [lia | constructor].
  - change (mark_continuation (g :: g' :: rest'))
      with (Z.lor g 0x80 :: mark_continuation (g' :: rest')).
    constructor; [| exact IH]. pose proof (cont_range g Hg). lia.
Qed.

(** [encode_var_len] returns for every integer: it has no error path. *)
Lemma encode_var_len_returns (value : Z) :
  exists bs : bytes,
    encode_var_len value = Returned bs /\
    map Z_of_byte bs = mark_continuation (groups_of value).
Proof.
  rewrite encode_var_len_groups. apply py_bytes_range.
  apply mark_continuation_range, groups_of_range.
Qed.

(** ** The groups are the base-128 digits *)

Lemma be128_snoc (groups : list Z) (g : Z) :
  be128 (groups ++ [g]) = be128 groups * 128 + g.
Proof. unfold be128. rewrite fold_left_app. reflexivity. Qed.

Lemma be128_min_groups (n : nat) :
  forall v, 0 <= v < 128 ^ Z.of_nat n -> be128 (min_groups n v) = v.
Proof.
  induction n as [| n IH]; intros v Hv.
  - simpl in *. unfold be128. simpl. lia.
  - simpl min_groups. destruct (Z.ltb_spec 0 v) as [Hpos | Hnonpos].
    + rewrite be128_snoc, IH.
      * pose proof (Z.div_mod v 128 ltac:(lia)). lia.
      * split; [apply Z.div_pos; lia | apply div128_lt; lia].
    + unfold be128. simpl. lia.
Qed.

Lemma min_groups_nonpos (n : nat) (v : Z) : v <= 0 -> min_groups n v = [].
Proof.
  intros Hv. destruct n as [| n]; simpl; [reflexivity |].
  destruct (Z.ltb_spec 0 v); [lia | reflexivity].
Qed.

Lemma min_groups_nil (n : nat) (v : Z) :
  v < 128 ^ Z.of_nat n -> (min_groups n v = [] <-> v <= 0).
Proof.
  intros Hlt. split; [| apply min_groups_nonpos].
  destruct n as [| n]; simpl min_groups.
  - simpl in Hlt. lia.
  - destruct (Z.ltb_spec 0 v) as [Hpos | Hnonpos]; [| lia].
    intros H. apply app_eq_nil in H as [_ H]. discriminate.
Qed.

Lemma min_groups_hd (n : nat) :
  forall v, 0 < v < 128 ^ Z.of_nat n -> hd 0 (min_groups n v) <> 0.
Proof.
  induction n as [| n IH]; intros v Hv.
  - simpl in Hv. lia.
  - simpl min_groups. destruct (Z.ltb_spec 0 v) as [_ | ?]; [| lia].
    assert (Hdiv : v / 128 < 128 ^ Z.of_nat n) by (apply div128_lt; lia).
    assert (Hnonneg : 0 <= v / 128) by (apply Z.div_pos; lia).
    pose proof (Z.div_mod v 128 ltac:(lia)) as Hdm.
    destruct (Z.le_gt_cases (v / 128) 0) as [Hzero | Hpos].
    + rewrite (min_groups_nonpos n _ Hzero). simpl. lia.
    + specialize (IH (v / 128) ltac:(lia)).
      destruct (min_groups n (v / 128)) as [| g rest] eqn:Hg; [| exact IH].
      apply (min_groups_nil n) in Hg; [lia | exact Hdiv].
Qed.

Lemma groups_of_value (v : Z) : 0 <= v -> be128 (groups_of v) = v.
Proof.
  intros Hv. unfold groups_of. rewrite be128_snoc, be128_min_groups.
  - pose proof (Z.div_mod v 128 ltac:(lia)). lia.
  - split; [apply Z.div_pos; lia | apply log2_bound].
Qed.

Lemma groups_of_canonical (v : Z) :
  0 <= v -> length (groups_of v) = 1%nat \/ hd 0 (groups_of v) <> 0.
Proof.
  intros Hv. unfold groups_of.
  destruct (Z.le_gt_cases (v / 128) 0) as [Hzero | Hpos].
  - left. rewrite (min_groups_nonpos _ _ Hzero). reflexivity.
  - right.
    pose proof (min_groups_hd (Z.to_nat (Z.log2 v) + 1) (v / 128)
                  (conj Hpos (log2_bound v))) as Hhd.
    destruct (min_groups (Z.to_nat (Z.log2 v) + 1) (v / 128)); [| exact Hhd].
    simpl in Hhd. congruence.
Qed.

Lemma groups_of_single (v : Z) :
  0 <= v -> (length (groups_of v) = 1%nat <-> v < 128).
Proof.
  intros Hv. unfold groups_of. rewrite length_app. simpl length.
  pose proof (min_groups_nil _ _ (log2_bound v)) as Hnil.
  split.
  - intros Hlen.
    assert (Hempty : min_groups (Z.to_nat (Z.log2 v) + 1) (v / 128) = []).
    { destruct (min_groups _ (v / 128)); [reflexivity | simpl in Hlen; lia]. }
    apply Hnil in Hempty.
    destruct (Z.lt_ge_cases v 128); [assumption |].
    assert (1 <= v / 128) by (apply Z.div_le_lower_bound; lia). lia.
  - intros Hsmall.
    assert (Hzero : v / 128 <= 0) by (rewrite Z.div_small; lia).
    rewrite (min_groups_nonpos _ _ Hzero). reflexivity.
Qed.

(** ** Decoding *)

Lemma decode_marked (groups : list Z) :
  forall (bs : bytes) (acc g : Z) (rest : bytes),
    Forall (fun g => 0 <= g < 128) groups -> 0 <= g < 128 ->
    map Z_of_byte bs = map set_continuation groups ++ [g] ->
    decode_var_len_from acc (bs ++ rest) =
    Some (fold_left (fun a d => a * 128 + d) (groups ++ [g]) acc, rest).
Proof.
  induction groups as [| g' groups IH]; intros bs acc g rest Hgs Hg Hbs.
  - destruct bs as [| b [| b' bs']]; try discriminate.
    injection Hbs as Hb. simpl. rewrite Hb.
    rewrite group_land_80, group_land_7F by assumption. simpl.
    rewrite lor_shiftl_add by (cbn; lia). reflexivity.
  - destruct bs as [| b bs]; [discriminate |].
    simpl in Hbs. injection Hbs as Hb Hbs.
    inversion Hgs as [| ? ? Hg' Hgs']; subst.
    simpl app. simpl decode_var_len_from. rewrite Hb. unfold set_continuation.
    rewrite cont_land_80, cont_land_7F by assumption. simpl Z.eqb. cbv iota.
    rewrite lor_shiftl_add by (cbn; lia).
    rewrite (IH bs _ g rest Hgs' Hg Hbs). reflexivity.
Qed.

Lemma decode_encoded (v : Z) (bs rest : bytes) :
  0 <= v -> encode_var_len v = Returned bs ->
  decode_var_len (bs ++ rest) = Some (v, rest).
Proof.
  intros Hv Henc.
  destruct (encode_var_len_returns v) as (bs' & Henc' & Hbs).
  rewrite Henc in Henc'. injection Henc' as <-.
  pose proof (groups_of_value v Hv) as Hval.
  pose proof (groups_of_range v) as Hrange.
  unfold groups_of in *. rewrite mark_continuation_snoc in Hbs.
  apply Forall_app in Hrange as [Hinit Hlast].
  inversion Hlast as [| ? ? Hg _]; subst.
  unfold decode_var_len.
  rewrite (decode_marked _ bs 0 (v mod 128) rest Hinit Hg Hbs).
  unfold be128 in Hval. rewrite Hval. reflexivity.
Qed.

(** ** Claims about [encode_var_len] *)

(** C2.  For every [v] with [0 <= v < 2^28], [encode_var_len v] returns the
    variable-length quantity of [v]: its 7-bit groups, most significant
    first, the continuation bit set on every byte but the last; the matching
    decoder reads [v] back (and leaves what follows the quantity untouched);
    the result is one byte exactly when [v < 0x80]; and [encode_var_len 0]
    is the single byte [0x00]. *)
Theorem encode_var_len_is_vlq (v : Z) :
  0 <= v < 2 ^ 28 ->
  exists bs : bytes,
    encode_var_len v = Returned bs /\
    is_vlq v bs /\
    (forall rest, decode_var_len (bs ++ rest) = Some (v, rest)) /\
    (length bs = 1%nat <-> v < 0x80) /\
    encode_var_len 0 = Returned [x00].
Proof.
  intros [Hv _].
  destruct (encode_var_len_returns v) as (bs & Henc & Hbs).
  exists bs. split; [exact Henc |]. split; [| split; [| split]].
  - exists (groups_of v). split; [| split; [| split; [| split]]].
    + unfold groups_of. intros H. apply app_eq_nil in H as [_ H]. discriminate.
    + apply groups_of_range.
    + apply groups_of_canonical, Hv.
    + apply groups_of_value, Hv.
    + exact Hbs.
  - intros rest. apply decode_encoded; assumption.
  - rewrite <- (groups_of_single v Hv).
    rewrite <- (length_map Z_of_byte bs), Hbs.
    unfold groups_of. rewrite mark_continuation_snoc.
    rewrite !length_app, length_map. reflexivity.
  - reflexivity.
Qed.

Lemma encode_var_len_is_vlq_witness :
  0 <= 480 < 2 ^ 28 /\
  exists bs : bytes,
    encode_var_len 480 = Returned bs /\
    is_vlq 480 bs /\
    (forall rest, decode_var_len (bs ++ rest) = Some (480, rest)) /\
    (length bs = 1%nat <-> 480 < 0x80) /\
    encode_var_len 0 = Returned [x00].
Proof.
  split; [| apply (encode_var_len_is_vlq 480)]; simpl; lia.
Defined.

(** C8, as the code behaves.  [encode_var_len] has no error path: for a
    negative [v] neither loop test fails to terminate, the first loop is not
    entered, and the method returns the single byte [v & 0x7F]. *)
Theorem encode_var_len_negative (v : Z) :
  v < 0 ->
  exists b : byte,
    encode_var_len v = Returned [b] /\
    Z_of_byte b = Z.land v 0x7F /\
    forall fuel, (1 <= fuel)%nat ->
      encode_var_len_fuel fuel v = Some (Returned [b]).
Proof.
  intros Hv.
  assert (Hlt : v / 128 < 128 ^ Z.of_nat 0).
  { assert (v / 128 < 0) by (apply Z.div_lt_upper_bound; lia).
    simpl. lia. }
  pose proof (Z.mod_pos_bound v 128 ltac:(lia)) as Hg.
  destruct (byte_of_Z_range (v mod 128) ltac:(lia)) as (b & Hb & Hzb).
  assert (Hrun : forall fuel, (1 <= fuel)%nat ->
            encode_var_len_fuel fuel v = Some (Returned [b])).
  { intros fuel Hfuel.
    rewrite (encode_var_len_fuel_groups 0 fuel v Hlt) by lia.
    simpl. rewrite Hb. reflexivity. }
  exists b. split; [| split].
  - unfold encode_var_len. rewrite Hrun; [reflexivity |].
    unfold var_len_fuel. lia.
  - rewrite land_7F. exact Hzb.
  - exact Hrun.
Qed.

Lemma encode_var_len_negative_witness :
  -1 < 0 /\
  exists b : byte,
    encode_var_len (-1) = Returned [b] /\
    Z_of_byte b = Z.land (-1) 0x7F /\
    forall fuel, (1 <= fuel)%nat ->
      encode_var_len_fuel fuel (-1) = Some (Returned [b]).
Proof.
  split; [lia | apply (encode_var_len_negative (-1)); lia].
Defined.

(** C8, as the claim states it, fails at [-1]: the call returns the byte
    [0x7F] and raises nothing. *)
Lemma encode_var_len_negative_no_error :
  encode_var_len (-1) = Returned [x7f] /\
  ~ (exists e : exn, encode_var_len (-1) = Raised e).
Proof.
  split; [reflexivity |]. intros [e He]. discriminate He.
Qed.

(** ** The render-time sort *)

Section Sorting.

Lemma insert_event_Forall (P : event -> Prop) (e : event) (l : list event) :
  P e -> Forall P l -> Forall P (insert_event e l).
Proof.
  intros He. induction 1 as [| e' rest He' Hrest IH]; simpl.
  - constructor; [exact He | constructor].
  - destruct (fst e <=? fst e'); repeat constructor; assumption.
Qed.

Lemma insert_event_sorted (e : event) (l : list event) :
  StronglySorted tick_le l -> StronglySorted tick_le (insert_event e l).
Proof.
  induction 1 as [| e' rest Hsorted IH Hall]; simpl.
  - repeat constructor.
  - destruct (Z.leb_spec (fst e) (fst e')) as [Hle | Hgt].
    + constructor; [constructor; assumption |].
      constructor; [exact Hle |].
      eapply Forall_impl; [exact Hall |].
      unfold tick_le. intros; simpl in *; lia.
    + constructor; [exact IH |].
      apply insert_event_Forall; [unfold tick_le; lia | exact Hall].
Qed.

Lemma sort_by_tick_sorted (l : list event) :
  StronglySorted tick_le (sort_by_tick l).
Proof.
  induction l as [| e l IH]; simpl; [constructor |].
  apply insert_event_sorted, IH.
Qed.

Lemma at_tick_cons (t : Z) (e : event) (l : list event) :
  at_tick t (e :: l) = at_tick t [e] ++ at_tick t l.
Proof. unfold at_tick. simpl. destruct (fst e =? t); reflexivity. Qed.

(** Insertion passes only events of a smaller tick, so it keeps the order
    among the events of every single tick. *)
Lemma at_tick_insert (t : Z) (e : event) (l : list event) :
  at_tick t (insert_event e l) = at_tick t [e] ++ at_tick t l.
Proof.
  induction l as [| e' rest IH]; [apply at_tick_cons |].
  simpl insert_event.
  destruct (Z.leb_spec (fst e) (fst e')) as [Hle | Hgt];
    [apply at_tick_cons |].
  rewrite at_tick_cons, IH, (at_tick_cons t e' rest).
  unfold at_tick. simpl.
  destruct (Z.eqb_spec (fst e) t) as [He | He];
    destruct (Z.eqb_spec (fst e') t) as [He' | He']; try reflexivity.
  lia.
Qed.

Lemma sort_by_tick_stable (t : Z) (l : list event) :
  at_tick t (sort_by_tick l) = at_tick t l.
Proof.
  induction l as [| e l IH]; [reflexivity |].
  simpl sort_by_tick. rewrite at_tick_insert, IH. symmetry. apply at_tick_cons.
Qed.

Lemma insert_event_perm (e : event) (l : list event) :
  Permutation (insert_event e l) (e :: l).
Proof.
  induction l as [| e' rest IH]; simpl; [reflexivity |].
  destruct (fst e <=? fst e'); [reflexivity |].
  rewrite IH. apply perm_swap.
Qed.

Lemma sort_by_tick_perm (l : list event) : Permutation (sort_by_tick l) l.
Proof.
  induction l as [| e l IH]; simpl; [reflexivity |].
  rewrite insert_event_perm, IH. reflexivity.
Qed.

Lemma sort_by_tick_Forall (P : event -> Prop) (l : list event) :
  Forall P l -> Forall P (sort_by_tick l).
Proof.
  induction 1; simpl; [constructor |].
  apply insert_event_Forall; assumption.
Qed.

(** Sorting a sorted list changes nothing. *)
Lemma sort_by_tick_fixed (l : list event) :
  StronglySorted tick_le l -> sort_by_tick l = l.
Proof.
  induction 1 as [| e rest Hsorted IH Hall]; [reflexivity |].
  simpl. rewrite IH. destruct Hall as [| e' rest' Hle _]; [reflexivity |].
  simpl. unfold tick_le in Hle.
  destruct (Z.leb_spec (fst e) (fst e')); [reflexivity | lia].
Qed.

Lemma at_tick_In (t : Z) (e : event) (l : list event) :
  In e (at_tick t l) <-> In e l /\ fst e = t.
Proof.
  unfold at_tick. rewrite filter_In, Z.eqb_eq. reflexivity.
Qed.

(** The contract of a stable ascending sort determines its result: two
    sorted lists that hold, at every tick, the same events in the same
    order are equal. *)
Lemma stable_sorted_eq (l1 : list event) :
  forall l2,
    StronglySorted tick_le l1 -> StronglySorted tick_le l2 ->
    (forall t, at_tick t l1 = at_tick t l2) ->
    l1 = l2.
Proof.
  induction l1 as [| e1 l1 IH]; intros l2 Hs1 Hs2 Heq.
  - destruct l2 as [| e2 l2]; [reflexivity |].
    specialize (Heq (fst e2)). unfold at_tick in Heq. simpl in Heq.
    rewrite Z.eqb_refl in Heq. discriminate.
  - destruct l2 as [| e2 l2].
    + specialize (Heq (fst e1)). unfold at_tick in Heq. simpl in Heq.
      rewrite Z.eqb_refl in Heq. discriminate.
    + inversion Hs1 as [| ? ? Hs1' Hall1]; subst.
      inversion Hs2 as [| ? ? Hs2' Hall2]; subst.
      assert (Hticks : fst e1 = fst e2).
      { assert (Hin2 : In e1 (e2 :: l2)).
        { apply (at_tick_In (fst e1)). rewrite <- Heq.
          apply at_tick_In. split; [left |]; reflexivity. }
        assert (Hin1 : In e2 (e1 :: l1)).
        { apply (at_tick_In (fst e2)). rewrite Heq.
          apply at_tick_In. split; [left |]; reflexivity. }
        rewrite List.Forall_forall in Hall1, Hall2. unfold tick_le in Hall1, Hall2.
        destruct Hin2 as [-> | Hin2]; [reflexivity |].
        destruct Hin1 as [-> | Hin1]; [reflexivity |].
        specialize (Hall1 _ Hin1). specialize (Hall2 _ Hin2). lia. }
      assert (Hhead : e1 = e2).
      { specialize (Heq (fst e1)). unfold at_tick in Heq. simpl in Heq.
        rewrite <- Hticks, Z.eqb_refl in Heq. congruence. }
      subst e2. f_equal. apply IH; [assumption | assumption |].
      intros t. specialize (Heq t). unfold at_tick in *. simpl in Heq.
      destruct (fst e1 =? t); congruence.
Qed.

Lemma stable_sort_unique (l sorted : list event) :
  StronglySorted tick_le sorted ->
  (forall t, at_tick t sorted = at_tick t l) ->
  sorted = sort_by_tick l.
Proof.
  intros Hsorted Hstable. apply stable_sorted_eq.
  - exact Hsorted.
  - apply sort_by_tick_sorted.
  - intros t. rewrite Hstable, sort_by_tick_stable. reflexivity.
Qed.

End Sorting.

(** ** [_get_track] and the mutators *)

Lemma set_tracks_same (self : MidiWriter) : set_tracks (tracks self) self = self.
Proof. destruct self; reflexivity. Qed.

(** The loop of [_get_track] appends exactly the missing tracks. *)
Lemma get_track_loop_extends (n : nat) :
  forall (track_idx : Z) (self : MidiWriter) (fuel : nat),
    Z.to_nat (track_idx + 1 - len (tracks self)) = n -> (n < fuel)%nat ->
    get_track_loop fuel track_idx self =
    Some (set_tracks (tracks self ++ replicate n new_Track) self).
Proof.
  induction n as [| n IH]; intros track_idx self [| fuel] Hn Hfuel; try lia.
  - simpl. destruct (Z.geb_spec track_idx (len (tracks self))); [lia |].
    rewrite app_nil_r, set_tracks_same. reflexivity.
  - change (get_track_loop (S fuel) track_idx self)
      with (if track_idx >=? len (tracks self)
            then get_track_loop fuel track_idx (fst (addTrack self))
            else Some self).
    destruct (Z.geb_spec track_idx (len (tracks self))); [| lia].
    rewrite (IH track_idx (fst (addTrack self)) fuel).
    + simpl. unfold set_tracks. simpl. rewrite <- app_assoc. reflexivity.
    + simpl. unfold len in *. rewrite length_app. simpl. lia.
    + lia.
Qed.

(** Termination of [_get_track]: the fuel of the model is never exhausted. *)
Lemma get_track_loop_enough (track_idx : Z) (self : MidiWriter) (fuel : nat) :
  (get_track_fuel track_idx self <= fuel)%nat ->
  get_track_loop fuel track_idx self =
  Some (fst (_get_track track_idx self)).
Proof.
  intros Hfuel. unfold _get_track, get_track_fuel in *.
  rewrite !(get_track_loop_extends _ track_idx self _ eq_refl) by lia.
  reflexivity.
Qed.

Lemma _get_track_extends (track_idx : Z) (self : MidiWriter) :
  0 <= track_idx ->
  _get_track track_idx self =
  (set_tracks
     (tracks self
      ++ replicate (Z.to_nat (track_idx + 1 - len (tracks self))) new_Track)
     self,
   Returned (Z.to_nat track_idx)).
Proof.
  intros Hidx. unfold _get_track, get_track_fuel.
  rewrite (get_track_loop_extends _ track_idx self _ eq_refl) by lia.
  f_equal. unfold subscript, set_tracks. simpl.
  assert (Hlen : track_idx <
                 len (tracks self ++
                      replicate (Z.to_nat (track_idx + 1 - len (tracks self)))
                                new_Track)).
  { unfold len. rewrite length_app, length_replicate. lia. }
  destruct (Z.leb_spec 0 track_idx); [| lia].
  destruct (Z.ltb_spec track_idx
              (len (tracks self ++
                    replicate (Z.to_nat (track_idx + 1 - len (tracks self)))
                              new_Track))); [reflexivity | lia].
Qed.

(** The constant event bytes the mutators build are always bytes. *)
Lemma status_byte_range (status channel : Z) :
  0 <= status < 16 ->
  0 <= Z.lor (status * 16) (Z.land channel 0x0F) < 256.
Proof.
  intros Hs.
  assert (Hc : 0 <= Z.land channel 0x0F < 16).
  { change 0x0F with (Z.ones 4). rewrite Z.land_ones by lia.
    apply Z.mod_pos_bound. reflexivity. }
  replace (status * 16) with (Z.shiftl status 4)
    by (rewrite Z.shiftl_mul_pow2 by lia; reflexivity).
  rewrite lor_shiftl_add by (cbn; lia). change (2 ^ 4) with 16. lia.
Qed.

Lemma data_byte_range (v : Z) : 0 <= Z.land v 0x7F < 256.
Proof.
  rewrite land_7F. pose proof (Z.mod_pos_bound v 128 ltac:(lia)). lia.
Qed.

Lemma be_bytes_range (n : nat) :
  forall v, Forall (fun z => 0 <= z < 256) (be_bytes n v).
Proof.
  induction n as [| n IH]; intros v; simpl; [constructor |].
  apply Forall_app. split; [apply IH |].
  constructor; [| constructor]. apply Z.mod_pos_bound. lia.
Qed.

Lemma validate_Note_rejected (track channel start duration pitch velocity : Z) :
  rejected (CallAddNote track channel start duration pitch velocity) = true ->
  exists msg,
    validate_Note track channel start duration velocity = Raised (ValueError msg).
Proof.
  unfold rejected, validate_Note. intros H.
  destruct (track <? 0); [eexists; reflexivity |].
  destruct (channel <? 0); [eexists; reflexivity |].
  destruct (start <? 0); [eexists; reflexivity |].
  destruct (duration <=? 0); [eexists; reflexivity |].
  simpl in H.
  destruct (Z.ltb_spec velocity 0), (Z.ltb_spec 127 velocity),
    (Z.leb_spec 0 velocity), (Z.leb_spec velocity 127);
    try lia; try discriminate; eexists; reflexivity.
Qed.

Lemma validate_Note_accepted (track channel start duration pitch velocity : Z) :
  rejected (CallAddNote track channel start duration pitch velocity) = false ->
  validate_Note track channel start duration velocity = Returned tt /\
  0 <= track /\ 0 <= start /\ 0 < duration.
Proof.
  unfold rejected, validate_Note. intros H.
  destruct (Z.ltb_spec track 0); [discriminate |].
  destruct (Z.ltb_spec channel 0); [discriminate |].
  destruct (Z.ltb_spec start 0); [discriminate |].
  destruct (Z.leb_spec duration 0); [discriminate |].
  simpl in H.
  destruct (Z.ltb_spec velocity 0), (Z.ltb_spec 127 velocity),
    (Z.leb_spec 0 velocity), (Z.leb_spec velocity 127);
    try lia; try discriminate; simpl; repeat split; lia.
Qed.

Lemma validate_BPM_rejected (track start bpm : Z) :
  rejected (CallAddBPM track start bpm) = true ->
  exists msg, validate_BPM track start bpm = Raised (ValueError msg).
Proof.
  unfold rejected, validate_BPM. intros H.
  destruct (track <? 0); [eexists; reflexivity |].
  destruct (start <? 0); [eexists; reflexivity |].
  destruct (bpm <=? 0); [eexists; reflexivity | discriminate].
Qed.

Lemma validate_BPM_accepted (track start bpm : Z) :
  rejected (CallAddBPM track start bpm) = false ->
  validate_BPM track start bpm = Returned tt /\
  0 <= track /\ 0 <= start /\ 0 < bpm.
Proof.
  unfold rejected, validate_BPM. intros H.
  destruct (Z.ltb_spec track 0); [discriminate |].
  destruct (Z.ltb_spec start 0); [discriminate |].
  destruct (Z.leb_spec bpm 0); [discriminate |].
  repeat split; lia.
Qed.

(** An accepted [addNote] extends the track list up to [track] and appends
    the note-on and the note-off to that track. *)
Lemma addNote_accepted (track channel start duration pitch velocity : Z)
    (self : MidiWriter) :
  rejected (CallAddNote track channel start duration pitch velocity) = false ->
  exists note_on note_off : bytes,
    map Z_of_byte note_on =
      [Z.lor 0x90 (Z.land channel 0x0F); Z.land pitch 0x7F;
       Z.land velocity 0x7F] /\
    map Z_of_byte note_off =
      [Z.lor 0x80 (Z.land channel 0x0F); Z.land pitch 0x7F; 0] /\
    addNote track channel start duration pitch velocity self =
    mkOutcome
      (set_tracks
         (alter (add_event (start + duration) note_off) (Z.to_nat track)
            (alter (add_event start note_on) (Z.to_nat track)
               (extend_to track (tracks self))))
         self)
      [] None.
Proof.
  intros Hacc.
  destruct (validate_Note_accepted _ _ _ _ _ _ Hacc) as (Hval & Ht & Hs & Hd).
  destruct (py_bytes_range
              [Z.lor 0x90 (Z.land channel 0x0F); Z.land pitch 0x7F;
               Z.land velocity 0x7F]) as (note_on & Hon & Hon_bytes).
  { repeat constructor; try apply data_byte_range;
      apply (status_byte_range 9 channel); lia. }
  destruct (py_bytes_range
              [Z.lor 0x80 (Z.land channel 0x0F); Z.land pitch 0x7F; 0])
    as (note_off & Hoff & Hoff_bytes).
  { repeat constructor; try apply data_byte_range; try lia;
      apply (status_byte_range 8 channel); lia. }
  exists note_on, note_off. split; [exact Hon_bytes |].
  split; [exact Hoff_bytes |].
  unfold addNote. rewrite Hval, (_get_track_extends track self Ht).
  rewrite Hon, Hoff. reflexivity.
Qed.

(** An accepted [addBPM] whose tempo fits three bytes extends the track list
    up to [track] and appends one tempo event to that track. *)
Lemma addBPM_accepted (track start bpm : Z) (self : MidiWriter) :
  rejected (CallAddBPM track start bpm) = false ->
  Z.quot 60000000 bpm < 2 ^ 24 ->
  exists tempo_bytes : bytes,
    map Z_of_byte tempo_bytes = be_bytes 3 (Z.quot 60000000 bpm) /\
    addBPM track start bpm self =
    mkOutcome
      (set_tracks
         (alter (add_event start ([xff; x51; x03] ++ tempo_bytes))
            (Z.to_nat track) (extend_to track (tracks self)))
         self)
      [] None.
Proof.
  intros Hacc Hfit.
  destruct (validate_BPM_accepted _ _ _ Hacc) as (Hval & Ht & Hs & Hb).
  destruct (py_bytes_range (be_bytes 3 (Z.quot 60000000 bpm))
              (be_bytes_range 3 _)) as (tempo_bytes & Htempo & Htempo_bytes).
  exists tempo_bytes. split; [exact Htempo_bytes |].
  unfold addBPM, to_bytes_big. rewrite Hval.
  assert (Hquot : 0 <= Z.quot 60000000 bpm)
    by (apply Z.quot_pos; lia).
  destruct (Z.ltb_spec (Z.quot 60000000 bpm) 0); [lia |].
  destruct (Z.leb_spec (256 ^ Z.of_nat 3) (Z.quot 60000000 bpm)) as [Hbig | _].
  { change (256 ^ Z.of_nat 3) with (2 ^ 24) in Hbig. lia. }
  cbv [orb]. rewrite Htempo.
  change (py_bytes [0xFF; 0x51; 0x03]) with (Returned [xff; x51; x03]).
  cbv iota beta. rewrite (_get_track_extends track self Ht). reflexivity.
Qed.

(** An accepted [addBPM] whose tempo does not fit three bytes leaves the
    method with the [OverflowError] of [int.to_bytes]; the object is as it
    was. *)
Lemma addBPM_overflow (track start bpm : Z) (self : MidiWriter) :
  rejected (CallAddBPM track start bpm) = false ->
  2 ^ 24 <= Z.quot 60000000 bpm ->
  addBPM track start bpm self = mkOutcome self [] (Some OverflowError).
Proof.
  intros Hacc Hbig.
  destruct (validate_BPM_accepted _ _ _ Hacc) as (Hval & Ht & Hs & Hb).
  unfold addBPM, to_bytes_big. rewrite Hval.
  destruct (Z.ltb_spec (Z.quot 60000000 bpm) 0); [reflexivity |].
  destruct (Z.leb_spec (256 ^ Z.of_nat 3) (Z.quot 60000000 bpm)) as [_ | Hsmall].
  - reflexivity.
  - change (256 ^ Z.of_nat 3) with (2 ^ 24) in Hsmall. lia.
Qed.

(** [setChannel] records the program and appends one program-change event at
    tick 0 to track 0, which it creates when there is no track yet. *)
Lemma setChannel_spec (channel program : Z) (self : MidiWriter) :
  exists event_bytes : bytes,
    map Z_of_byte event_bytes =
      [Z.lor 0xC0 (Z.land channel 0x0F); Z.land program 0x7F] /\
    setChannel channel program self =
    mkOutcome
      (mkMidiWriter (ticks_per_quarter self)
         (alter (add_event 0 event_bytes) 0%nat (extend_to 0 (tracks self)))
         (<[channel := program]> (channel_program self)))
      [] None.
Proof.
  destruct (py_bytes_range
              [Z.lor 0xC0 (Z.land channel 0x0F); Z.land program 0x7F])
    as (event_bytes & Hev & Hev_bytes).
  { repeat constructor; try apply data_byte_range;
      apply (status_byte_range 12 channel); lia. }
  exists event_bytes. split; [exact Hev_bytes |].
  unfold setChannel. rewrite _get_track_extends by lia.
  rewrite Hev. reflexivity.
Qed.

(** A rejected call changes nothing and prints its two warning lines. *)
Lemma addNote_rejected (track channel start duration pitch velocity : Z)
    (self : MidiWriter) :
  rejected (CallAddNote track channel start duration pitch velocity) = true ->
  exists e,
    addNote track channel start duration pitch velocity self =
    mkOutcome self
      (Note_warning e track channel start duration pitch velocity) None.
Proof.
  intros Hrej.
  destruct (validate_Note_rejected _ _ _ _ pitch _ Hrej) as (msg & Hval).
  exists (ValueError msg). unfold addNote. rewrite Hval. reflexivity.
Qed.

Lemma addBPM_rejected (track start bpm : Z) (self : MidiWriter) :
  rejected (CallAddBPM track start bpm) = true ->
  exists e,
    addBPM track start bpm self =
    mkOutcome self (BPM_warning e track start bpm) None.
Proof.
  intros Hrej.
  destruct (validate_BPM_rejected _ _ _ Hrej) as (msg & Hval).
  exists (ValueError msg). unfold addBPM. rewrite Hval. reflexivity.
Qed.

(** ** Invariants of the object along any sequence of calls *)

Section Invariants.

Variable P : Track -> Prop.
Hypothesis P_new : P new_Track.

Lemma extend_to_Forall (track_idx : Z) (trks : list Track) :
  Forall P trks -> Forall P (extend_to track_idx trks).
Proof.
  intros H. apply Forall_app. split; [exact H |].
  apply Forall_replicate, P_new.
Qed.

Lemma alter_Forall (f : Track -> Track) (pos : nat) (trks : list Track) :
  (forall trk, P trk -> P (f trk)) ->
  Forall P trks -> Forall P (alter f pos trks).
Proof.
  intros Hf H. revert pos.
  induction H as [| trk rest Htrk Hrest IH]; intros [| pos]; simpl.
  - constructor.
  - constructor.
  - constructor; [apply Hf, Htrk | exact Hrest].
  - constructor; [exact Htrk | apply IH].
Qed.

End Invariants.

Lemma add_event_nonneg (tick : Z) (event_bytes : bytes) (trk : Track) :
  0 <= tick -> nonneg_track trk -> nonneg_track (add_event tick event_bytes trk).
Proof.
  intros Htick Htrk. unfold nonneg_track, add_event. simpl.
  apply Forall_app. split; [exact Htrk |]. repeat constructor. exact Htick.
Qed.

Lemma sort_events_nonneg (trk : Track) :
  nonneg_track trk -> nonneg_track (sort_events trk).
Proof. apply sort_by_tick_Forall. Qed.

Lemma perform_ticks_nonneg (c : call) (self : MidiWriter) :
  ticks_nonneg self -> ticks_nonneg (after (perform c self)).
Proof.
  unfold ticks_nonneg. intros Hinv.
  assert (Hnew : nonneg_track new_Track) by constructor.
  destruct c as [| channel program | track start bpm
                 | track channel start duration pitch velocity |]; simpl.
  - apply Forall_app. split; [exact Hinv | repeat constructor].
  - destruct (setChannel_spec channel program self) as (ev & _ & ->). simpl.
    apply alter_Forall; [| apply extend_to_Forall; assumption].
    intros trk. apply add_event_nonneg. lia.
  - destruct (rejected (CallAddBPM track start bpm)) eqn:Hrej.
    + destruct (addBPM_rejected _ _ _ self Hrej) as (e & ->). exact Hinv.
    + destruct (validate_BPM_accepted _ _ _ Hrej) as (_ & _ & Hs & _).
      destruct (Z.lt_ge_cases (Z.quot 60000000 bpm) (2 ^ 24)) as [Hfit | Hbig].
      * destruct (addBPM_accepted _ _ _ self Hrej Hfit) as (tb & _ & ->). simpl.
        apply alter_Forall; [| apply extend_to_Forall; assumption].
        intros trk. apply add_event_nonneg. exact Hs.
      * rewrite (addBPM_overflow _ _ _ self Hrej Hbig). exact Hinv.
  - destruct (rejected
                (CallAddNote track channel start duration pitch velocity))
      eqn:Hrej.
    + destruct (addNote_rejected _ _ _ _ _ _ self Hrej) as (e & ->). exact Hinv.
    + destruct (validate_Note_accepted _ _ _ _ _ _ Hrej) as (_ & _ & Hs & Hd).
      destruct (addNote_accepted _ _ _ _ _ _ self Hrej) as (on & off & _ & _ & ->).
      simpl.
      apply alter_Forall; [intros trk; apply add_event_nonneg; lia |].
      apply alter_Forall; [intros trk; apply add_event_nonneg; lia |].
      apply extend_to_Forall; assumption.
  - apply Forall_map. eapply Forall_impl; [exact Hinv |].
    intros trk. apply sort_events_nonneg.
Qed.

Lemma do_calls_ticks_nonneg (cs : list call) :
  forall self, ticks_nonneg self -> ticks_nonneg (do_calls cs self).
Proof.
  induction cs as [| c cs IH]; intros self Hinv; [exact Hinv |].
  apply IH, perform_ticks_nonneg, Hinv.
Qed.

Lemma perform_ticks_per_quarter (c : call) (self : MidiWriter) :
  ticks_per_quarter (after (perform c self)) = ticks_per_quarter self.
Proof.
  destruct c as [| channel program | track start bpm
                 | track channel start duration pitch velocity |]; simpl.
  - reflexivity.
  - destruct (setChannel_spec channel program self) as (ev & _ & ->).
    reflexivity.
  - destruct (rejected (CallAddBPM track start bpm)) eqn:Hrej.
    + destruct (addBPM_rejected _ _ _ self Hrej) as (e & ->). reflexivity.
    + destruct (Z.lt_ge_cases (Z.quot 60000000 bpm) (2 ^ 24)) as [Hfit | Hbig].
      * destruct (addBPM_accepted _ _ _ self Hrej Hfit) as (tb & _ & ->).
        reflexivity.
      * rewrite (addBPM_overflow _ _ _ self Hrej Hbig). reflexivity.
  - destruct (rejected
                (CallAddNote track channel start duration pitch velocity))
      eqn:Hrej.
    + destruct (addNote_rejected _ _ _ _ _ _ self Hrej) as (e & ->).
      reflexivity.
    + destruct (addNote_accepted _ _ _ _ _ _ self Hrej)
        as (on & off & _ & _ & ->). reflexivity.
  - reflexivity.
Qed.

Lemma do_calls_ticks_per_quarter (cs : list call) :
  forall self, ticks_per_quarter (do_calls cs self) = ticks_per_quarter self.
Proof.
  induction cs as [| c cs IH]; intros self; [reflexivity |].
  simpl. rewrite IH. apply perform_ticks_per_quarter.
Qed.

(** ** The delta times of a render *)

Lemma encode_var_len_bytes (value : Z) :
  encode_var_len value = Returned (var_len_bytes value).
Proof.
  unfold var_len_bytes.
  destruct (encode_var_len_returns value) as (bs & -> & _). reflexivity.
Qed.

(** The inner loop of [save] hands exactly [render_deltas] to
    [encode_var_len], one delta per event and in order. *)
Lemma render_events_deltas (evs : list event) :
  forall (prev_tick : Z) (track_data : bytes),
    render_events prev_tick evs track_data =
    Returned
      (track_data ++
       concat (zip_with (fun d (e : event) => var_len_bytes d ++ snd e)
                 (render_deltas prev_tick evs) evs)).
Proof.
  induction evs as [| [tick ev] rest IH]; intros prev_tick track_data; simpl.
  - rewrite app_nil_r. reflexivity.
  - rewrite encode_var_len_bytes. simpl. rewrite IH.
    rewrite <- !app_assoc. reflexivity.
Qed.

Lemma render_deltas_nonneg (evs : list event) :
  forall prev_tick,
    StronglySorted tick_le evs ->
    Forall (fun e : event => prev_tick <= fst e) evs ->
    Forall (fun d => 0 <= d) (render_deltas prev_tick evs).
Proof.
  induction evs as [| [tick ev] rest IH]; intros prev_tick Hsorted Hprev;
    simpl; [constructor |].
  inversion Hsorted as [| ? ? Hsorted' Hall]; subst.
  inversion Hprev as [| ? ? Hhead _]; subst. simpl in Hhead.
  constructor; [lia |].
  apply IH; [exact Hsorted' | exact Hall].
Qed.

(** * The claims *)

(** C1.  On a fresh writer, [addBPM(track=0, start=0, bpm=120)] and then
    [addNote(track=0, channel=0, start=0, duration=480, pitch=60,
    velocity=120)] both return without a warning, and [save] writes one track
    chunk whose payload is exactly [00 FF 51 03 07 A1 20], [00 90 3C 78],
    [83 60 80 3C 00], [00 FF 2F 00]. *)
Theorem end_to_end_payload :
  let tempo := addBPM 0 0 120 new_MidiWriter in
  let note := addNote 0 0 0 480 60 120 (after tempo) in
  let payload :=
    [x00; xff; x51; x03; x07; xa1; x20] ++ [x00; x90; x3c; x78]
    ++ [x83; x60; x80; x3c; x00] ++ [x00; xff; x2f; x00] in
  (printed tempo, raised tempo) = ([], None) /\
  (printed note, raised note) = ([], None) /\
  map track_payload (tracks (fst (save (after note)))) = [Returned payload] /\
  snd (save (after note)) =
  Returned (MThd ++ [x00; x00; x00; x06] ++ [x00; x00; x00; x01; x01; xe0]
            ++ MTrk ++ [x00; x00; x00; x14] ++ payload).
Proof. vm_compute. repeat split; reflexivity. Qed.

(** C3.  The sort [save] applies to every track is ascending in the tick and
    stable: at every tick the events keep their insertion order (and these
    two properties fix the result, [stable_sort_unique]).  Appending
    [(5, A)], [(5, B)], [(3, C)] to a new track renders [C], [A], [B] in
    that order. *)
Theorem sort_events_stable (trk : Track) :
  StronglySorted tick_le (events (sort_events trk)) /\
  (forall t, at_tick t (events (sort_events trk)) = at_tick t (events trk)) /\
  (forall self, tracks (fst (save self)) = map sort_events (tracks self)) /\
  (forall A B C : bytes,
     let appended := add_event 3 C (add_event 5 B (add_event 5 A new_Track)) in
     events (sort_events appended) = [(3, C); (5, A); (5, B)] /\
     track_payload (sort_events appended) =
     Returned ([x03] ++ C ++ [x02] ++ A ++ [x00] ++ B
               ++ [x00; xff; x2f; x00])).
Proof.
  split; [apply sort_by_tick_sorted |].
  split; [intros t; apply sort_by_tick_stable |].
  split; [reflexivity |].
  intros A B C appended. split; [reflexivity |].
  unfold track_payload. simpl events.
  rewrite render_events_deltas. simpl.
  change (var_len_bytes (3 - 0)) with [x03].
  change (var_len_bytes (5 - 3)) with [x02].
  change (var_len_bytes (5 - 5)) with [x00].
  change (encode_var_len 0) with (Returned [x00]).
  simpl. rewrite app_nil_r.
  repeat (rewrite <- app_assoc || rewrite <- app_comm_cons). reflexivity.
Qed.

(** C7.  After any sequence of public calls on a fresh writer, whatever their
    arguments, every delta time [save] computes is at least 0; these deltas
    are exactly the values the inner loop hands to [encode_var_len]. *)
Theorem render_deltas_never_negative (cs : list call) :
  Forall
    (fun trk =>
       Forall (fun d => 0 <= d) (render_deltas 0 (events trk)) /\
       render_events 0 (events trk) [] =
       Returned
         (concat (zip_with (fun d (e : event) => var_len_bytes d ++ snd e)
                    (render_deltas 0 (events trk)) (events trk))))
    (tracks (fst (save (do_calls cs new_MidiWriter)))).
Proof.
  pose proof (do_calls_ticks_nonneg cs new_MidiWriter) as Hinv.
  specialize (Hinv ltac:(constructor)). unfold ticks_nonneg in Hinv.
  simpl. apply Forall_map.
  eapply Forall_impl; [exact Hinv |].
  intros trk Htrk. split.
  - apply render_deltas_nonneg; [apply sort_by_tick_sorted |].
    apply sort_by_tick_Forall, Htrk.
  - apply (render_events_deltas _ 0 []).
Qed.

(** C10.  Saving twice in a row writes the same bytes (or raises the same
    exception) both times; the second call finds the tracks already sorted
    and leaves them as they are, although the first call does reorder the
    events of a track in place. *)
Theorem save_idempotent (self : MidiWriter) :
  snd (save (fst (save self))) = snd (save self) /\
  fst (save (fst (save self))) = fst (save self) /\
  exists unsorted : MidiWriter, fst (save unsorted) <> unsorted.
Proof.
  assert (Hfix : fst (save (fst (save self))) = fst (save self)).
  { unfold save, set_tracks. simpl. f_equal.
    rewrite map_map. apply map_ext. intros trk. unfold sort_events. simpl.
    f_equal. apply sort_by_tick_fixed, sort_by_tick_sorted. }
  split; [| split; [exact Hfix |]].
  - change (snd (save self))
      with (let* header_chunk := header_chunk (fst (save self)) in
            let* track_chunks := render_tracks (tracks (fst (save self))) [] in
            Returned (header_chunk ++ track_chunks)).
    change (snd (save (fst (save self))))
      with (let* header_chunk := header_chunk (fst (save (fst (save self)))) in
            let* track_chunks :=
              render_tracks (tracks (fst (save (fst (save self))))) [] in
            Returned (header_chunk ++ track_chunks)).
    rewrite Hfix. reflexivity.
  - exists (mkMidiWriter 480 [mkTrack [(5, []); (3, [])]] ∅).
    vm_compute. intros H. discriminate H.
Qed.

(** C5 fails on the code at [bpm = 1]: the call passes validation, then
    [int.to_bytes(3, ...)] raises [OverflowError] for the tempo 60000000,
    outside the [try] block, and no event is appended. *)
Theorem addBPM_bpm_1_raises :
  rejected (CallAddBPM 0 0 1) = false /\
  addBPM 0 0 1 new_MidiWriter =
  mkOutcome new_MidiWriter [] (Some OverflowError).
Proof. split; reflexivity. Qed.



(** ** The header chunk *)

Lemma struct_pack_h_value (v : Z) :
  0 <= v <= 32767 ->
  exists hi lo : byte,
    struct_pack_h v = Returned [hi; lo] /\
    Z_of_byte hi * 256 + Z_of_byte lo = v.
Proof.
  intros Hv. unfold struct_pack_h.
  destruct (Z.leb_spec (-32768) v); [| lia].
  destruct (Z.leb_spec v 32767); [| lia].
  rewrite Z.mod_small by lia. cbv [andb].
  destruct (py_bytes_range (be_bytes 2 v) (be_bytes_range 2 v))
    as (bs & Hbs & Hvals).
  rewrite Hbs. simpl in Hvals.
  destruct bs as [| hi [| lo [| ? ?]]]; try discriminate Hvals.
  injection Hvals as Hhi Hlo.
  exists hi, lo. split; [reflexivity |].
  rewrite Hhi, Hlo.
  rewrite (Z.mod_small (v / 256)).
  - pose proof (Z.div_mod v 256 ltac:(lia)). lia.
  - split; [apply Z.div_pos; lia | apply Z.div_lt_upper_bound; lia].
Qed.

Lemma header_chunk_save (self : MidiWriter) :
  header_chunk (fst (save self)) = header_chunk self.
Proof.
  unfold header_chunk, save, set_tracks, len. simpl.
  rewrite length_map. reflexivity.
Qed.

Lemma save_written (self : MidiWriter) :
  snd (save self) =
  (let* header := header_chunk self in
   let* track_chunks := render_tracks (map sort_events (tracks self)) [] in
   Returned (header ++ track_chunks)).
Proof.
  rewrite <- header_chunk_save. reflexivity.
Qed.

(** C4, as the claim states it, fails on a writer without tracks: the
    format field of the header [save] writes is [00 00], not 1. *)
Lemma header_format_without_tracks :
  len (tracks new_MidiWriter) = 0 /\
  snd (save new_MidiWriter) =
  Returned (MThd ++ [x00; x00; x00; x06]
            ++ [x00; x00] ++ [x00; x00] ++ [x01; xe0]) /\
  Z_of_byte x00 * 256 + Z_of_byte x00 <> 1.
Proof. repeat split; vm_compute; congruence. Qed.

(** C4, as the code behaves.  For a writer reached by public calls that has
    at most 32767 tracks (the range of [struct.pack(">h")]), the header
    chunk is [MThd], the length 6, and three big-endian 16-bit fields: the
    format, which is 1 when there is more than one track and 0 otherwise
    (also without any track); the number of tracks; and 480.  What [save]
    writes starts with that header. *)
Theorem header_chunk_fields (cs : list call) :
  let self := do_calls cs new_MidiWriter in
  len (tracks self) <= 32767 ->
  exists f1 f0 n1 n0 : byte,
    let header :=
      MThd ++ [x00; x00; x00; x06] ++ [f1; f0] ++ [n1; n0] ++ [x01; xe0] in
    header_chunk self = Returned header /\
    Z_of_byte f1 * 256 + Z_of_byte f0 =
      (if len (tracks self) >? 1 then 1 else 0) /\
    Z_of_byte n1 * 256 + Z_of_byte n0 = len (tracks self) /\
    (forall written,
       snd (save self) = Returned written ->
       exists track_chunks, written = header ++ track_chunks).
Proof.
  intros self Hlen.
  assert (Hnonneg : 0 <= len (tracks self)) by (unfold len; lia).
  destruct (struct_pack_h_value (if len (tracks self) >? 1 then 1 else 0))
    as (f1 & f0 & Hf & Hfv).
  { destruct (len (tracks self) >? 1); lia. }
  destruct (struct_pack_h_value (len (tracks self)) ltac:(lia))
    as (n1 & n0 & Hn & Hnv).
  exists f1, f0, n1, n0.
  assert (Hheader : header_chunk self =
            Returned (MThd ++ [x00; x00; x00; x06] ++ [f1; f0] ++ [n1; n0]
                      ++ [x01; xe0])).
  { unfold header_chunk. rewrite Hf, Hn.
    unfold self. rewrite do_calls_ticks_per_quarter. reflexivity. }
  split; [exact Hheader |]. split; [exact Hfv |]. split; [exact Hnv |].
  intros written Hsave. rewrite save_written, Hheader in Hsave.
  simpl in Hsave.
  destruct (render_tracks (map sort_events (tracks self)) [])
    as [track_chunks | e]; [| discriminate Hsave].
  injection Hsave as <-. exists track_chunks. reflexivity.
Qed.

Lemma header_chunk_fields_witness :
  let self := do_calls [CallAddNote 1 0 0 480 60 120] new_MidiWriter in
  len (tracks self) <= 32767 /\
  exists f1 f0 n1 n0 : byte,
    let header :=
      MThd ++ [x00; x00; x00; x06] ++ [f1; f0] ++ [n1; n0] ++ [x01; xe0] in
    header_chunk self = Returned header /\
    Z_of_byte f1 * 256 + Z_of_byte f0 =
      (if len (tracks self) >? 1 then 1 else 0) /\
    Z_of_byte n1 * 256 + Z_of_byte n0 = len (tracks self) /\
    (forall written,
       snd (save self) = Returned written ->
       exists track_chunks, written = header ++ track_chunks).
Proof.
  split.
  - vm_compute. discriminate.
  - apply (header_chunk_fields [CallAddNote 1 0 0 480 60 120]).
    vm_compute. discriminate.
Defined.

(** ** Auto-extension of the track list *)

Lemma extend_to_extends (t : Z) (trks : list Track) :
  0 <= t -> extends_to t trks (extend_to t trks).
Proof.
  intros Ht. unfold extends_to, extend_to, len. split; [| split].
  - rewrite length_app, length_replicate. lia.
  - intros i trk Hi _. apply lookup_app_l_Some, Hi.
  - intros i Hi. rewrite lookup_app_r by lia.
    apply lookup_replicate_2. unfold len. lia.
Qed.

Lemma alter_extends (f : Track -> Track) (t : Z) (trks trks' : list Track) :
  extends_to t trks trks' -> extends_to t trks (alter f (Z.to_nat t) trks').
Proof.
  unfold extends_to, len. intros (Hlen & Hold & Hgap). split; [| split].
  - rewrite length_alter. exact Hlen.
  - intros i trk Hi Hne. rewrite list_lookup_alter_ne by congruence.
    apply Hold; assumption.
  - intros i Hi. rewrite list_lookup_alter_ne by lia. apply Hgap, Hi.
Qed.

Lemma map_Forall2 {A B C : Type} (f : A -> B) (R : B -> C -> Prop)
    (l : list A) (l' : list C) :
  Forall2 R (map f l) l' -> Forall2 (fun a c => R (f a) c) l l'.
Proof.
  revert l'. induction l as [| a l IH]; intros l' H; inversion H; subst;
    constructor; auto.
Qed.

(** The outer loop of [save] appends the track chunks in list order. *)
Lemma render_tracks_chunks (trks : list Track) :
  forall track_chunks written,
    render_tracks trks track_chunks = Returned written ->
    exists chunks : list bytes,
      Forall2 (fun trk c => track_chunk trk = Returned c) trks chunks /\
      written = track_chunks ++ concat chunks.
Proof.
  induction trks as [| trk rest IH]; intros track_chunks written H; simpl in H.
  - injection H as <-. exists []. split; [constructor |].
    simpl. rewrite app_nil_r. reflexivity.
  - destruct (track_chunk trk) as [c | e] eqn:Hc; [| discriminate H].
    simpl in H. destruct (IH _ _ H) as (chunks & Hall & ->).
    exists (c :: chunks). split; [constructor; assumption |].
    simpl. rewrite <- app_assoc. reflexivity.
Qed.

(** C9 fails on the code at [addBPM(track=3, start=0, bpm=1)] on a fresh
    writer.  The call passes validation and refers to track 3 of a writer
    without tracks, but [int.to_bytes] raises [OverflowError] before
    [_get_track] is reached: the track list stays empty.  The sibling
    [addNote(track=3, ...)] does extend the list to four tracks.  This is the
    defect of C5 again. *)
Theorem addBPM_overflow_skips_extension :
  rejected (CallAddBPM 3 0 1) = false /\
  target_track (CallAddBPM 3 0 1) = Some 3 /\
  len (tracks new_MidiWriter) <= 3 /\
  addBPM 3 0 1 new_MidiWriter =
    mkOutcome new_MidiWriter [] (Some OverflowError) /\
  tracks (after (addBPM 3 0 1 new_MidiWriter)) = [] /\
  ~ extends_to 3 (tracks new_MidiWriter)
      (tracks (after (addBPM 3 0 1 new_MidiWriter))) /\
  len (tracks (after (addNote 3 0 0 480 60 120 new_MidiWriter))) = 4.
Proof.
  split; [reflexivity |]. split; [reflexivity |].
  split; [vm_compute; discriminate |]. split; [reflexivity |].
  split; [reflexivity |]. split; [| reflexivity].
  intros (Hlen & _). vm_compute in Hlen. discriminate Hlen.
Qed.

(** X25.  A mutator that is accepted and returns extends the track list so
    that the track it refers to exists: the list then has as many tracks as
    the larger of the old count and the index plus one, the other old tracks
    are untouched and the tracks in between are new and empty.
    [addNote(track=3, ...)] on a fresh writer gives four tracks, the first
    three empty.  What [save] hands to the file is the header followed by
    the chunk of track 0, of track 1, and so on in list order. *)
Theorem auto_extension :
  (forall (c : call) (self : MidiWriter) (t : Z),
     target_track c = Some t -> rejected c = false ->
     raised (perform c self) = None ->
     extends_to t (tracks self) (tracks (after (perform c self)))) /\
  (forall (track_idx : Z) (self : MidiWriter),
     0 <= track_idx ->
     tracks (fst (_get_track track_idx self)) =
       extend_to track_idx (tracks self) /\
     snd (_get_track track_idx self) = Returned (Z.to_nat track_idx)) /\
  tracks (after (addNote 3 0 0 480 60 120 new_MidiWriter)) =
    [new_Track; new_Track; new_Track;
     mkTrack [(0, [x90; x3c; x78]); (480, [x80; x3c; x00])]] /\
  (forall (self : MidiWriter) (written : bytes),
     snd (save self) = Returned written ->
     exists (header : bytes) (chunks : list bytes),
       header_chunk self = Returned header /\
       Forall2 (fun trk c => track_chunk (sort_events trk) = Returned c)
               (tracks self) chunks /\
       written = header ++ concat chunks).
Proof.
  split; [| split; [| split]].
  - intros c self t Htarget Hacc Hraised.
    destruct c as [| channel program | track start bpm
                   | track channel start duration pitch velocity |];
      try discriminate Htarget; injection Htarget as <-; simpl in *.
    + destruct (setChannel_spec channel program self) as (ev & _ & ->). simpl.
      apply (alter_extends _ 0), extend_to_extends. lia.
    + destruct (validate_BPM_accepted _ _ _ Hacc) as (_ & Ht & _ & _).
      destruct (Z.lt_ge_cases (Z.quot 60000000 bpm) (2 ^ 24)) as [Hfit | Hbig].
      * destruct (addBPM_accepted _ _ _ self Hacc Hfit) as (tb & _ & ->). simpl.
        apply alter_extends, extend_to_extends, Ht.
      * rewrite (addBPM_overflow _ _ _ self Hacc Hbig) in Hraised.
        discriminate Hraised.
    + destruct (validate_Note_accepted track channel start duration pitch
                  velocity Hacc) as (_ & Ht & _ & _).
      destruct (addNote_accepted track channel start duration pitch velocity
                  self Hacc) as (on & off & _ & _ & ->). simpl.
      apply alter_extends, alter_extends, extend_to_extends, Ht.
  - intros track_idx self Hidx.
    rewrite (_get_track_extends track_idx self Hidx). split; reflexivity.
  - reflexivity.
  - intros self written Hsave. rewrite save_written in Hsave.
    destruct (header_chunk self) as [header | e]; [| discriminate Hsave].
    simpl in Hsave.
    destruct (render_tracks (map sort_events (tracks self)) [])
      as [track_chunks | e] eqn:Hrender; [| discriminate Hsave].
    injection Hsave as <-.
    destruct (render_tracks_chunks _ _ _ Hrender) as (chunks & Hall & ->).
    exists header, chunks. split; [reflexivity |].
    split; [| reflexivity].
    exact (map_Forall2 sort_events
             (fun trk c => track_chunk trk = Returned c) _ _ Hall).
Qed.

Lemma auto_extension_witness :
  (target_track (CallAddBPM 2 0 120) = Some 2 /\
   rejected (CallAddBPM 2 0 120) = false /\
   raised (perform (CallAddBPM 2 0 120) new_MidiWriter) = None /\
   extends_to 2 (tracks new_MidiWriter)
     (tracks (after (perform (CallAddBPM 2 0 120) new_MidiWriter)))) /\
  (exists written : bytes,
     let self := after (addNote 1 9 0 480 35 100 new_MidiWriter) in
     snd (save self) = Returned written /\
     exists (header : bytes) (chunks : list bytes),
       header_chunk self = Returned header /\
       Forall2 (fun trk c => track_chunk (sort_events trk) = Returned c)
               (tracks self) chunks /\
       written = header ++ concat chunks).
Proof.
  split.
  - repeat split; try reflexivity;
      apply (proj1 auto_extension (CallAddBPM 2 0 120) new_MidiWriter 2);
      reflexivity.
  - eexists. split; [vm_compute; reflexivity |].
    apply (proj2 (proj2 (proj2 auto_extension))). vm_compute. reflexivity.
Defined.

(** * Further properties of the code *)

(** ** More on [encode_var_len] *)

Lemma min_groups_length_iff (n : nat) :
  forall (v : Z) (k : nat),
    0 <= v < 128 ^ Z.of_nat n ->
    ((length (min_groups n v) <= k)%nat <-> v < 128 ^ Z.of_nat k).
Proof.
  induction n as [| n IH]; intros v k Hv.
  - simpl in *. assert (0 < 128 ^ Z.of_nat k) by (apply Z.pow_pos_nonneg; lia).
    split; lia.
  - simpl min_groups. destruct (Z.ltb_spec 0 v) as [Hpos | Hzero].
    + rewrite length_app. simpl length.
      assert (Hdiv : 0 <= v / 128 < 128 ^ Z.of_nat n).
      { split; [apply Z.div_pos; lia | apply div128_lt; lia]. }
      destruct k as [| k].
      * simpl. split; lia.
      * specialize (IH (v / 128) k Hdiv). rewrite pow128_S.
        split.
        -- intros Hlen. assert (Hlt : v / 128 < 128 ^ Z.of_nat k)
             by (apply IH; lia).
           pose proof (Z.div_mod v 128 ltac:(lia)).
           pose proof (Z.mod_pos_bound v 128 ltac:(lia)). lia.
        -- intros Hlt.
           assert (v / 128 < 128 ^ Z.of_nat k)
             by (apply Z.div_lt_upper_bound; lia).
           apply IH in H. lia.
    + assert (0 < 128 ^ Z.of_nat k) by (apply Z.pow_pos_nonneg; lia).
      simpl. split; lia.
Qed.

(** X1.  The encoding is prefix-free on the integers that are not negative:
    when the encoding of [w] starts with the encoding of [v], then [v = w]
    and nothing follows.  So [encode_var_len] is injective there, without
    any upper bound on the value. *)
Theorem encode_var_len_prefix_free (v w : Z) (bs rest : bytes) :
  0 <= v -> 0 <= w ->
  encode_var_len v = Returned bs ->
  encode_var_len w = Returned (bs ++ rest) ->
  v = w /\ rest = [].
Proof.
  intros Hv Hw Hencv Hencw.
  pose proof (decode_encoded v bs rest Hv Hencv) as Hdv.
  pose proof (decode_encoded w (bs ++ rest) [] Hw Hencw) as Hdw.
  rewrite app_nil_r in Hdw. rewrite Hdv in Hdw.
  injection Hdw as -> ->. split; reflexivity.
Qed.

Lemma encode_var_len_prefix_free_witness :
  0 <= 480 /\ 0 <= 480 /\
  encode_var_len 480 = Returned [x83; x60] /\
  encode_var_len 480 = Returned ([x83; x60] ++ []) /\
  480 = 480 /\ @nil byte = [].
Proof.
  repeat (split; [first [lia | reflexivity] |]).
  apply (encode_var_len_prefix_free 480 480 [x83; x60] []);
    first [lia | reflexivity].
Defined.

(** X2.  The number of bytes [encode_var_len] returns for [v >= 0] is the
    number of base-128 digits of [v]: at most [n] bytes exactly when
    [v < 128 ^ n].  Nothing bounds the value: from [2 ^ 28] on the result
    has five bytes or more, one more than a Standard MIDI File allows. *)
Theorem encode_var_len_length (v : Z) (n : nat) :
  0 <= v -> (1 <= n)%nat ->
  exists bs : bytes,
    encode_var_len v = Returned bs /\
    ((length bs <= n)%nat <-> v < 128 ^ Z.of_nat n) /\
    (2 ^ 28 <= v -> (5 <= length bs)%nat).
Proof.
  intros Hv Hn.
  destruct (encode_var_len_returns v) as (bs & Henc & Hbs).
  exists bs. split; [exact Henc |].
  assert (Hlen : length bs =
                 S (length (min_groups (Z.to_nat (Z.log2 v) + 1) (v / 128)))).
  { rewrite <- (length_map Z_of_byte bs), Hbs. unfold groups_of.
    rewrite mark_continuation_snoc, length_app, length_map. simpl. lia. }
  assert (Hdiv : 0 <= v / 128 < 128 ^ Z.of_nat (Z.to_nat (Z.log2 v) + 1)).
  { split; [apply Z.div_pos; lia | apply log2_bound]. }
  assert (Hiff : forall k : nat,
             (length bs <= S k)%nat <-> v < 128 ^ Z.of_nat (S k)).
  { intros k. rewrite Hlen, pow128_S.
    pose proof (min_groups_length_iff _ (v / 128) k Hdiv) as Hk.
    pose proof (Z.div_mod v 128 ltac:(lia)).
    pose proof (Z.mod_pos_bound v 128 ltac:(lia)).
    split.
    - intros Hle. assert (v / 128 < 128 ^ Z.of_nat k) by (apply Hk; lia). lia.
    - intros Hlt. assert (v / 128 < 128 ^ Z.of_nat k)
        by (apply Z.div_lt_upper_bound; lia).
      apply Hk in H1. lia. }
  split.
  - destruct n as [| n]; [lia | apply Hiff].
  - intros Hbig. destruct (Nat.le_gt_cases 5 (length bs)) as [H5 | H4];
      [exact H5 |].
    assert (Hle : (length bs <= 4)%nat) by lia.
    apply (Hiff 3%nat) in Hle. change (128 ^ Z.of_nat 4) with (2 ^ 28) in Hle.
    lia.
Qed.

Lemma encode_var_len_length_witness :
  0 <= 268435456 /\ (1 <= 4)%nat /\
  exists bs : bytes,
    encode_var_len 268435456 = Returned bs /\
    ((length bs <= 4)%nat <-> 268435456 < 128 ^ Z.of_nat 4) /\
    (2 ^ 28 <= 268435456 -> (5 <= length bs)%nat).
Proof.
  split; [lia |]. split; [lia |].
  apply (encode_var_len_length 268435456 4); lia.
Defined.

(** ** More on the render-time sort *)

(** X3.  Only the order among the events of one tick matters to the sort:
    two tracks are sorted into the same list exactly when, at every tick,
    they hold the same events in the same order. *)
Theorem sort_events_eq_iff (trk trk' : Track) :
  sort_events trk = sort_events trk' <->
  (forall t, at_tick t (events trk) = at_tick t (events trk')).
Proof.
  unfold sort_events. split.
  - intros Heq t. injection Heq as Heq.
    rewrite <- (sort_by_tick_stable t (events trk)), Heq.
    apply sort_by_tick_stable.
  - intros Hsame. f_equal. apply stable_sort_unique.
    + apply sort_by_tick_sorted.
    + intros t. rewrite sort_by_tick_stable. apply Hsame.
Qed.

(** X4.  A writer whose tracks all hold their events in ascending tick
    order, as they do when events are added in chronological order, is left
    by [save] exactly as it was. *)
Theorem save_keeps_chronological (self : MidiWriter) :
  Forall (fun trk => StronglySorted tick_le (events trk)) (tracks self) ->
  fst (save self) = self.
Proof.
  intros Hsorted.
  assert (Hmap : map sort_events (tracks self) = tracks self).
  { induction Hsorted as [| [evs] rest Hevs _ IH]; [reflexivity |].
    simpl. rewrite IH. unfold sort_events. simpl.
    rewrite (sort_by_tick_fixed evs Hevs). reflexivity. }
  unfold save. simpl. rewrite Hmap. apply set_tracks_same.
Qed.

Lemma save_keeps_chronological_witness :
  let self := after (addNote 0 0 480 480 62 100
                       (after (addNote 0 0 0 480 60 100 new_MidiWriter))) in
  Forall (fun trk => StronglySorted tick_le (events trk)) (tracks self) /\
  fst (save self) = self.
Proof.
  assert (H : Forall (fun trk => StronglySorted tick_le (events trk))
                (tracks (after (addNote 0 0 480 480 62 100
                   (after (addNote 0 0 0 480 60 100 new_MidiWriter)))))).
  { repeat constructor; unfold tick_le; simpl; lia. }
  split; [exact H | apply (save_keeps_chronological _ H)].
Defined.

(** X5.  [save] loses and invents nothing: it keeps the number of tracks,
    every track keeps exactly its events (as a permutation), and
    [ticks_per_quarter] and [channel_program] are as before. *)
Theorem save_keeps_events (self : MidiWriter) :
  Forall2 (fun trk trk' => Permutation (events trk') (events trk))
          (tracks self) (tracks (fst (save self))) /\
  ticks_per_quarter (fst (save self)) = ticks_per_quarter self /\
  channel_program (fst (save self)) = channel_program self.
Proof.
  split; [| split; reflexivity].
  unfold save. simpl.
  induction (tracks self) as [| trk rest IH]; simpl; constructor.
  - apply sort_by_tick_perm.
  - exact IH.
Qed.

(** ** More on [_get_track] and the mutators *)

(** X6.  [_get_track] appends tracks only for an index at or beyond the end
    of the list.  For a smaller index the writer is left as it is; the
    subscript then denotes that track, or, for a negative index, the track
    counted from the end, or raises [IndexError] when there is none. *)
Theorem _get_track_existing (track_idx : Z) (self : MidiWriter) :
  track_idx < len (tracks self) ->
  fst (_get_track track_idx self) = self /\
  (0 <= track_idx ->
   snd (_get_track track_idx self) = Returned (Z.to_nat track_idx)) /\
  (- len (tracks self) <= track_idx < 0 ->
   snd (_get_track track_idx self) =
   Returned (Z.to_nat (len (tracks self) + track_idx))) /\
  (track_idx < - len (tracks self) ->
   snd (_get_track track_idx self) = Raised IndexError).
Proof.
  intros Hidx.
  assert (Hn : Z.to_nat (track_idx + 1 - len (tracks self)) = 0%nat) by lia.
  assert (Hfst : fst (_get_track track_idx self) = self).
  { unfold _get_track, get_track_fuel.
    rewrite (get_track_loop_extends 0 track_idx self _ Hn) by lia.
    simpl. rewrite app_nil_r. apply set_tracks_same. }
  assert (Hsnd : snd (_get_track track_idx self) =
                 subscript (tracks self) track_idx).
  { change (snd (_get_track track_idx self))
      with (subscript (tracks (fst (_get_track track_idx self))) track_idx).
    rewrite Hfst. reflexivity. }
  split; [exact Hfst |]. rewrite Hsnd. unfold subscript.
  split; [| split]; intros Hcase.
  - destruct (Z.leb_spec 0 track_idx); [| lia].
    destruct (Z.ltb_spec track_idx (len (tracks self))); [reflexivity | lia].
  - destruct (Z.leb_spec 0 track_idx); [lia |].
    destruct (Z.ltb_spec track_idx 0); [| lia].
    destruct (Z.leb_spec 0 (len (tracks self) + track_idx)); [| lia].
    reflexivity.
  - destruct (Z.leb_spec 0 track_idx); [lia |].
    destruct (Z.ltb_spec track_idx 0); [| lia].
    destruct (Z.leb_spec 0 (len (tracks self) + track_idx)); [lia |].
    reflexivity.
Qed.

Lemma _get_track_existing_witness :
  -1 < len (tracks new_MidiWriter) /\
  fst (_get_track (-1) new_MidiWriter) = new_MidiWriter /\
  snd (_get_track (-1) new_MidiWriter) = Raised IndexError.
Proof.
  assert (H : -1 < len (tracks new_MidiWriter)) by (vm_compute; reflexivity).
  pose proof (_get_track_existing (-1) new_MidiWriter H) as (Hfst & _ & _ & Herr).
  split; [exact H |]. split; [exact Hfst |].
  apply Herr. vm_compute. reflexivity.
Defined.

Lemma land_0F (v : Z) : Z.land v 0x0F = v mod 16.
Proof. change 0x0F with (Z.ones 4). rewrite Z.land_ones by lia. reflexivity. Qed.

Lemma status_byte_value (status channel : Z) :
  0 <= status < 16 ->
  Z.lor (status * 16) (Z.land channel 0x0F) = status * 16 + channel mod 16.
Proof.
  intros Hs. rewrite land_0F.
  pose proof (Z.mod_pos_bound channel 16 ltac:(lia)).
  replace (status * 16) with (Z.shiftl status 4)
    by (rewrite Z.shiftl_mul_pow2 by lia; reflexivity).
  rewrite lor_shiftl_add by (cbn; lia). rewrite Z.shiftl_mul_pow2 by lia.
  reflexivity.
Qed.

(** X7.  Channel and pitch are not range-checked but masked: an accepted
    [addNote] does exactly the same when 16 is added to the channel any
    number of times, or any multiple of 128 to the pitch. *)
Theorem addNote_wraps_channel_and_pitch
    (track channel start duration pitch velocity k m : Z) (self : MidiWriter) :
  rejected (CallAddNote track channel start duration pitch velocity) = false ->
  0 <= k ->
  addNote track (channel + 16 * k) start duration (pitch + 128 * m) velocity
          self =
  addNote track channel start duration pitch velocity self.
Proof.
  intros Hacc Hk.
  assert (Hacc' : rejected (CallAddNote track (channel + 16 * k) start
                              duration (pitch + 128 * m) velocity) = false).
  { unfold rejected in *.
    destruct (Z.ltb_spec track 0); [discriminate |].
    destruct (Z.ltb_spec channel 0); [discriminate |].
    destruct (Z.ltb_spec (channel + 16 * k) 0); [lia |].
    exact Hacc. }
  destruct (validate_Note_accepted _ _ _ _ pitch _ Hacc) as (Hval & _).
  destruct (validate_Note_accepted _ _ _ _ (pitch + 128 * m) _ Hacc')
    as (Hval' & _).
  unfold addNote. rewrite Hval, Hval'.
  rewrite !land_0F, !land_7F.
  replace ((channel + 16 * k) mod 16) with (channel mod 16)
    by (rewrite (Z.mul_comm 16 k), Z.mod_add by lia; reflexivity).
  replace ((pitch + 128 * m) mod 128) with (pitch mod 128)
    by (rewrite (Z.mul_comm 128 m), Z.mod_add by lia; reflexivity).
  reflexivity.
Qed.

Lemma addNote_wraps_channel_and_pitch_witness :
  rejected (CallAddNote 0 9 0 120 35 120) = false /\ 0 <= 1 /\
  addNote 0 (9 + 16 * 1) 0 120 (35 + 128 * (-1)) 120 new_MidiWriter =
  addNote 0 9 0 120 35 120 new_MidiWriter.
Proof.
  split; [reflexivity |]. split; [lia |].
  apply (addNote_wraps_channel_and_pitch 0 9 0 120 35 120 1 (-1));
    [reflexivity | lia].
Defined.

Lemma extend_to_lookup (t : Z) (trks : list Track) (i : nat) :
  0 <= t ->
  extend_to t trks !! i =
  if decide (i < Nat.max (length trks) (Z.to_nat t + 1))%nat
  then Some (default new_Track (trks !! i)) else None.
Proof.
  intros Ht. unfold extend_to, len.
  destruct (decide (i < length trks)%nat) as [Hin | Hout].
  - rewrite lookup_app_l by exact Hin.
    destruct (lookup_lt_is_Some_2 trks i Hin) as [trk Htrk].
    rewrite Htrk. destruct (decide _); [reflexivity | lia].
  - rewrite lookup_app_r by lia.
    rewrite (lookup_ge_None_2 trks i) by lia. simpl.
    destruct (decide (i < Nat.max (length trks) (Z.to_nat t + 1))%nat).
    + apply lookup_replicate_2. lia.
    + apply lookup_replicate_None. lia.
Qed.

(** X8.  An accepted [addNote] puts exactly two events at the end of track
    [track], the note-on at [start] and after it the note-off at
    [start + duration]; the bytes are [0x90 + channel mod 16, pitch mod 128,
    velocity] and [0x80 + channel mod 16, pitch mod 128, 0].  It prints
    nothing and raises nothing. *)
Theorem addNote_appends_on_and_off
    (track channel start duration pitch velocity : Z) (self : MidiWriter) :
  rejected (CallAddNote track channel start duration pitch velocity) = false ->
  exists note_on note_off : bytes,
    map Z_of_byte note_on =
      [144 + channel mod 16; pitch mod 128; velocity] /\
    map Z_of_byte note_off = [128 + channel mod 16; pitch mod 128; 0] /\
    let result := addNote track channel start duration pitch velocity self in
    printed result = [] /\ raised result = None /\
    tracks (after result) !! Z.to_nat track =
    Some (mkTrack
            (events (default new_Track (tracks self !! Z.to_nat track))
             ++ [(start, note_on); (start + duration, note_off)])).
Proof.
  intros Hacc.
  destruct (validate_Note_accepted _ _ _ _ pitch _ Hacc) as (_ & Ht & _ & _).
  destruct (addNote_accepted _ _ _ _ _ _ self Hacc)
    as (note_on & note_off & Hon & Hoff & Hcall).
  assert (Hvel : 0 <= velocity < 128).
  { unfold rejected in Hacc.
    destruct (track <? 0), (channel <? 0), (start <? 0), (duration <=? 0),
      (Z.ltb_spec velocity 0), (Z.ltb_spec 127 velocity);
      try discriminate Hacc. lia. }
  exists note_on, note_off.
  split; [| split].
  - rewrite Hon. change 0x90 with (9 * 16).
    rewrite status_byte_value by lia.
    rewrite land_7F, (group_land_7F velocity Hvel). reflexivity.
  - rewrite Hoff. change 0x80 with (8 * 16).
    rewrite status_byte_value by lia. rewrite land_7F. reflexivity.
  - rewrite Hcall. simpl. split; [reflexivity |]. split; [reflexivity |].
    rewrite !list_lookup_alter, (extend_to_lookup track (tracks self) _ Ht).
    repeat case_decide; try lia; try congruence.
    simpl. unfold add_event. simpl. rewrite <- app_assoc. reflexivity.
Qed.

Lemma addNote_appends_on_and_off_witness :
  rejected (CallAddNote 2 9 0 120 35 120) = false /\
  exists note_on note_off : bytes,
    map Z_of_byte note_on = [144 + 9 mod 16; 35 mod 128; 120] /\
    map Z_of_byte note_off = [128 + 9 mod 16; 35 mod 128; 0] /\
    let result := addNote 2 9 0 120 35 120 new_MidiWriter in
    printed result = [] /\ raised result = None /\
    tracks (after result) !! Z.to_nat 2 =
    Some (mkTrack
            (events (default new_Track (tracks new_MidiWriter !! Z.to_nat 2))
             ++ [(0, note_on); (0 + 120, note_off)])).
Proof.
  split; [reflexivity |].
  apply (addNote_appends_on_and_off 2 9 0 120 35 120 new_MidiWriter).
  reflexivity.
Defined.

Lemma be_bytes_3_value (v : Z) (b2 b1 b0 : byte) :
  0 <= v < 2 ^ 24 ->
  map Z_of_byte [b2; b1; b0] = be_bytes 3 v ->
  Z_of_byte b2 * 65536 + Z_of_byte b1 * 256 + Z_of_byte b0 = v.
Proof.
  intros Hv Hbs. simpl in Hbs. injection Hbs as H2 H1 H0.
  rewrite H2, H1, H0.
  assert (Hhi : 0 <= v / 256 / 256 < 256).
  { split; [apply Z.div_pos; [apply Z.div_pos |]; lia |].
    apply Z.div_lt_upper_bound; [lia |].
    apply Z.div_lt_upper_bound; [lia |]. change (2 ^ 24) with 16777216 in Hv.
    lia. }
  rewrite (Z.mod_small (v / 256 / 256)) by exact Hhi.
  pose proof (Z.div_mod v 256 ltac:(lia)).
  pose proof (Z.div_mod (v / 256) 256 ltac:(lia)). lia.
Qed.

Lemma addBPM_small_bpm (track start bpm : Z) (self : MidiWriter) :
  rejected (CallAddBPM track start bpm) = false -> bpm <= 3 ->
  addBPM track start bpm self = mkOutcome self [] (Some OverflowError).
Proof.
  intros Hacc Hsmall.
  destruct (validate_BPM_accepted _ _ _ Hacc) as (_ & _ & _ & Hpos).
  apply addBPM_overflow; [exact Hacc |].
  rewrite Z.quot_div_nonneg by lia. change (2 ^ 24) with 16777216.
  apply Z.div_le_lower_bound; lia.
Qed.

Lemma addBPM_tempo_event (track start bpm : Z) (self : MidiWriter) :
  rejected (CallAddBPM track start bpm) = false -> 4 <= bpm ->
  exists t2 t1 t0 : byte,
    Z_of_byte t2 * 65536 + Z_of_byte t1 * 256 + Z_of_byte t0 =
      60000000 / bpm /\
    addBPM track start bpm self =
    mkOutcome
      (set_tracks
         (alter (add_event start [xff; x51; x03; t2; t1; t0])
            (Z.to_nat track) (extend_to track (tracks self)))
         self)
      [] None.
Proof.
  intros Hacc Hbig.
  assert (Hquot : Z.quot 60000000 bpm = 60000000 / bpm)
    by (apply Z.quot_div_nonneg; lia).
  assert (Hfit : 0 <= 60000000 / bpm < 2 ^ 24).
  { split; [apply Z.div_pos; lia |]. change (2 ^ 24) with 16777216.
    apply Z.div_lt_upper_bound; lia. }
  destruct (addBPM_accepted track start bpm self Hacc)
    as (tempo_bytes & Hbytes & Hcall).
  { rewrite Hquot. apply Hfit. }
  rewrite Hquot in Hbytes.
  destruct tempo_bytes as [| t2 [| t1 [| t0 [| ? ?]]]];
    try discriminate Hbytes.
  exists t2, t1, t0. split; [| exact Hcall].
  apply be_bytes_3_value; assumption.
Qed.

(** X9.  What [addBPM] does with arguments that pass validation depends on
    [bpm] alone.  For [bpm <= 3] the tempo does not fit three bytes:
    [OverflowError] leaves the call, nothing is printed and the writer is
    untouched.  For [bpm >= 4] the call returns after appending to track
    [track] one event [FF 51 03 t2 t1 t0] at [start], whose last three bytes
    are the big-endian value of [60000000 // bpm] (which is 0 from
    [bpm = 60000001] on). *)
Theorem addBPM_by_bpm (track start bpm : Z) (self : MidiWriter) :
  rejected (CallAddBPM track start bpm) = false ->
  (bpm <= 3 ->
   addBPM track start bpm self = mkOutcome self [] (Some OverflowError)) /\
  (4 <= bpm ->
   exists t2 t1 t0 : byte,
     Z_of_byte t2 * 65536 + Z_of_byte t1 * 256 + Z_of_byte t0 =
       60000000 / bpm /\
     addBPM track start bpm self =
     mkOutcome
       (set_tracks
          (alter (add_event start [xff; x51; x03; t2; t1; t0])
             (Z.to_nat track) (extend_to track (tracks self)))
          self)
       [] None) /\
  (60000000 < bpm -> 60000000 / bpm = 0).
Proof.
  intros Hacc. split; [| split].
  - intros Hsmall. apply addBPM_small_bpm; assumption.
  - intros Hbig. apply addBPM_tempo_event; assumption.
  - intros Hhuge. apply Z.div_small. lia.
Qed.

Lemma addBPM_by_bpm_witness :
  rejected (CallAddBPM 0 0 3) = false /\
  addBPM 0 0 3 new_MidiWriter = mkOutcome new_MidiWriter [] (Some OverflowError).
Proof.
  split; [reflexivity |].
  apply (proj1 (addBPM_by_bpm 0 0 3 new_MidiWriter eq_refl)). lia.
Defined.

(** X10.  [setChannel] validates nothing: for all integers, negative ones
    included, it returns without printing.  It records the program under the
    channel as given, appends the event [0xC0 + channel mod 16,
    program mod 128] at tick 0 to the end of track 0, which it creates when
    the writer has no track, and leaves every other track as it is. *)
Theorem setChannel_effect (channel program : Z) (self : MidiWriter) :
  exists event_bytes : bytes,
    map Z_of_byte event_bytes = [192 + channel mod 16; program mod 128] /\
    let result := setChannel channel program self in
    printed result = [] /\ raised result = None /\
    channel_program (after result) !! channel = Some program /\
    (forall other, other <> channel ->
       channel_program (after result) !! other =
       channel_program self !! other) /\
    tracks (after result) =
      mkTrack (events (default new_Track (tracks self !! 0%nat))
               ++ [(0, event_bytes)])
      :: tail (tracks self).
Proof.
  destruct (setChannel_spec channel program self) as (ev & Hev & Hcall).
  exists ev. split.
  - rewrite Hev. change 0xC0 with (12 * 16).
    rewrite status_byte_value by lia. rewrite land_7F. reflexivity.
  - rewrite Hcall. simpl.
    split; [reflexivity |]. split; [reflexivity |].
    split; [apply lookup_insert_eq |].
    split; [intros other Hne; apply lookup_insert_ne; congruence |].
    unfold extend_to, len. destruct (tracks self) as [| trk rest];
      [reflexivity |].
    replace (Z.to_nat (0 + 1 - Z.of_nat (length (trk :: rest)))) with 0%nat
      by (simpl length; lia).
    simpl. rewrite app_nil_r. reflexivity.
Qed.

(** X11.  [channel_program] is written by [setChannel] only and read by
    nothing: every other call leaves it as it is, and what [save] writes
    does not depend on it. *)
Theorem channel_program_write_only (self : MidiWriter) :
  (forall c : call,
     (forall channel program, c <> CallSetChannel channel program) ->
     channel_program (after (perform c self)) = channel_program self) /\
  (forall programs : gmap Z Z,
     snd (save (mkMidiWriter (ticks_per_quarter self) (tracks self) programs))
     = snd (save self)).
Proof.
  split; [| reflexivity].
  intros c Hother.
  destruct c as [| channel program | track start bpm
                 | track channel start duration pitch velocity |]; simpl.
  - reflexivity.
  - destruct (Hother channel program eq_refl).
  - destruct (rejected (CallAddBPM track start bpm)) eqn:Hrej.
    + destruct (addBPM_rejected _ _ _ self Hrej) as (e & ->). reflexivity.
    + destruct (Z.lt_ge_cases (Z.quot 60000000 bpm) (2 ^ 24)) as [Hfit | Hbig].
      * destruct (addBPM_accepted _ _ _ self Hrej Hfit) as (tb & _ & ->).
        reflexivity.
      * rewrite (addBPM_overflow _ _ _ self Hrej Hbig). reflexivity.
  - destruct (rejected
                (CallAddNote track channel start duration pitch velocity))
      eqn:Hrej.
    + destruct (addNote_rejected _ _ _ _ _ _ self Hrej) as (e & ->).
      reflexivity.
    + destruct (addNote_accepted _ _ _ _ _ _ self Hrej)
        as (on & off & _ & _ & ->). reflexivity.
  - reflexivity.
Qed.

Lemma channel_program_write_only_witness :
  (forall channel program,
     CallAddNote 0 0 0 480 60 100 <> CallSetChannel channel program) /\
  channel_program
    (after (perform (CallAddNote 0 0 0 480 60 100)
                    (after (setChannel 0 13 new_MidiWriter)))) =
  channel_program (after (setChannel 0 13 new_MidiWriter)).
Proof.
  assert (H : forall channel program,
            CallAddNote 0 0 0 480 60 100 <> CallSetChannel channel program)
    by (intros channel program; discriminate).
  split; [exact H |].
  apply (proj1 (channel_program_write_only
                  (after (setChannel 0 13 new_MidiWriter)))
               (CallAddNote 0 0 0 480 60 100) H).
Defined.

(** ** Nothing is ever removed *)


(** Every mutator either leaves the writer as it is, whatever the writer
    (its arguments were rejected, or [addBPM] overflowed), or extends the
    track list to its target and appends to that track events that depend on
    the arguments only. *)
Lemma perform_shape (c : call) (t : Z) :
  target_track c = Some t ->
  (forall self, after (perform c self) = self) \/
  (0 <= t /\
   exists (evs : list event) (record : gmap Z Z -> gmap Z Z),
     ((forall programs, record programs = programs) \/ t = 0) /\
     forall self,
       after (perform c self) =
       mkMidiWriter (ticks_per_quarter self)
                    (appended_to t evs (tracks self))
                    (record (channel_program self))).
Proof.
  intros Htarget.
  destruct c as [| channel program | track start bpm
                 | track channel start duration pitch velocity |];
    try discriminate Htarget; injection Htarget as <-.
  - right. split; [lia |].
    destruct (py_bytes_range
                [Z.lor 0xC0 (Z.land channel 0x0F); Z.land program 0x7F])
      as (ev & Hev & _).
    { repeat constructor; try apply data_byte_range;
        apply (status_byte_range 12 channel); lia. }
    exists [(0, ev)], (fun programs => <[channel := program]> programs).
    split; [right; reflexivity |]. intros self. simpl.
    unfold setChannel. rewrite _get_track_extends by lia.
    rewrite Hev. reflexivity.
  - destruct (rejected (CallAddBPM track start bpm)) eqn:Hrej.
    { left. intros self.
      destruct (addBPM_rejected _ _ _ self Hrej) as (e & He).
      simpl. rewrite He. reflexivity. }
    destruct (validate_BPM_accepted _ _ _ Hrej) as (Hval & Ht & _ & Hb).
    destruct (Z.lt_ge_cases (Z.quot 60000000 bpm) (2 ^ 24)) as [Hfit | Hbig].
    + right. split; [exact Ht |].
      destruct (py_bytes_range (be_bytes 3 (Z.quot 60000000 bpm))
                  (be_bytes_range 3 _)) as (tb & Htb & _).
      exists [(start, [xff; x51; x03] ++ tb)], (fun programs => programs).
      split; [left; reflexivity |]. intros self. simpl.
      unfold addBPM, to_bytes_big. rewrite Hval.
      assert (Hquot : 0 <= Z.quot 60000000 bpm) by (apply Z.quot_pos; lia).
      destruct (Z.ltb_spec (Z.quot 60000000 bpm) 0); [lia |].
      destruct (Z.leb_spec (256 ^ Z.of_nat 3) (Z.quot 60000000 bpm))
        as [Hover | _].
      { change (256 ^ Z.of_nat 3) with (2 ^ 24) in Hover. lia. }
      cbv [orb]. rewrite Htb.
      change (py_bytes [0xFF; 0x51; 0x03]) with (Returned [xff; x51; x03]).
      cbv iota beta. rewrite (_get_track_extends track self Ht).
      simpl. unfold set_tracks, add_event_at. simpl. f_equal.
    + left. intros self. simpl.
      rewrite (addBPM_overflow _ _ _ self Hrej Hbig). reflexivity.
  - destruct (rejected
                (CallAddNote track channel start duration pitch velocity))
      eqn:Hrej.
    { left. intros self.
      destruct (addNote_rejected _ _ _ _ _ _ self Hrej) as (e & He).
      simpl. rewrite He. reflexivity. }
    destruct (validate_Note_accepted _ _ _ _ pitch _ Hrej)
      as (Hval & Ht & _ & _).
    right. split; [exact Ht |].
    destruct (py_bytes_range
                [Z.lor 0x90 (Z.land channel 0x0F); Z.land pitch 0x7F;
                 Z.land velocity 0x7F]) as (note_on & Hon & _).
    { repeat constructor; try apply data_byte_range;
        apply (status_byte_range 9 channel); lia. }
    destruct (py_bytes_range
                [Z.lor 0x80 (Z.land channel 0x0F); Z.land pitch 0x7F; 0])
      as (note_off & Hoff & _).
    { repeat constructor; try apply data_byte_range; try lia;
        apply (status_byte_range 8 channel); lia. }
    exists [(start, note_on); (start + duration, note_off)],
           (fun programs => programs).
    split; [left; reflexivity |]. intros self. simpl.
    unfold addNote. rewrite Hval, (_get_track_extends track self Ht).
    rewrite Hon, Hoff.
    cbv [after add_event_at set_tracks tracks ticks_per_quarter
         channel_program].
    f_equal. unfold appended_to, extend_to. rewrite list_alter_alter_eq.
    apply list_alter_ext; [| reflexivity].
    intros trk _. simpl. unfold add_event. simpl.
    rewrite <- app_assoc. reflexivity.
Qed.

Lemma appended_to_length (t : Z) (evs : list event) (trks : list Track) :
  0 <= t ->
  length (appended_to t evs trks) = Nat.max (length trks) (Z.to_nat t + 1).
Proof.
  intros Ht. unfold appended_to, extend_to, len.
  rewrite length_alter, length_app, length_replicate. lia.
Qed.

Lemma appended_to_lookup (t : Z) (evs : list event) (trks : list Track)
    (i : nat) :
  0 <= t ->
  appended_to t evs trks !! i =
  if decide (i < Nat.max (length trks) (Z.to_nat t + 1))%nat
  then Some (if decide (Z.to_nat t = i)
             then mkTrack (events (track_at trks i) ++ evs)
             else track_at trks i)
  else None.
Proof.
  intros Ht. unfold appended_to, track_at.
  rewrite list_lookup_alter, !(extend_to_lookup t trks _ Ht).
  destruct (decide (Z.to_nat t = i)) as [<- | Hne].
  - repeat case_decide; try lia. reflexivity.
  - reflexivity.
Qed.

Lemma appended_to_track_at (t : Z) (evs : list event) (trks : list Track)
    (i : nat) :
  0 <= t ->
  track_at (appended_to t evs trks) i =
  if decide (Z.to_nat t = i)
  then mkTrack (events (track_at trks i) ++ evs)
  else track_at trks i.
Proof.
  intros Ht. unfold track_at at 1.
  rewrite (appended_to_lookup t evs trks i Ht).
  destruct (decide (i < Nat.max (length trks) (Z.to_nat t + 1))%nat)
    as [Hin | Hout]; [reflexivity |].
  destruct (decide (Z.to_nat t = i)); [lia |].
  unfold track_at. rewrite (lookup_ge_None_2 trks i) by lia. reflexivity.
Qed.

Lemma grows_refl (trks : list Track) : grows trks trks.
Proof.
  split; [lia |]. intros i trk Hi. exists trk. split; [exact Hi | reflexivity].
Qed.

Lemma grows_trans (l1 l2 l3 : list Track) :
  grows l1 l2 -> grows l2 l3 -> grows l1 l3.
Proof.
  intros [Hlen12 H12] [Hlen23 H23]. split; [lia |].
  intros i trk Hi. destruct (H12 i trk Hi) as (trk2 & Hi2 & Hsub2).
  destruct (H23 i trk2 Hi2) as (trk3 & Hi3 & Hsub3).
  exists trk3. split; [exact Hi3 | etransitivity; eassumption].
Qed.

Lemma appended_to_grows (t : Z) (evs : list event) (trks : list Track) :
  0 <= t -> grows trks (appended_to t evs trks).
Proof.
  intros Ht. split; [rewrite appended_to_length by exact Ht; lia |].
  intros i trk Hi. rewrite (appended_to_lookup t evs trks i Ht).
  pose proof (lookup_lt_Some _ _ _ Hi) as Hlt.
  destruct (decide _) as [_ | Hout]; [| lia].
  unfold track_at. rewrite Hi. simpl.
  destruct (decide (Z.to_nat t = i)); eexists; (split; [reflexivity |]).
  - simpl. apply submseteq_inserts_r. reflexivity.
  - reflexivity.
Qed.

Lemma perform_grows (c : call) (self : MidiWriter) :
  grows (tracks self) (tracks (after (perform c self))).
Proof.
  destruct (target_track c) as [t |] eqn:Htarget.
  - destruct (perform_shape c t Htarget)
      as [Hnoop | (Ht & evs & record & _ & Hshape)].
    + rewrite Hnoop. apply grows_refl.
    + rewrite Hshape. simpl. apply appended_to_grows, Ht.
  - destruct c; try discriminate Htarget; simpl.
    + split; [rewrite length_app; simpl; lia |].
      intros i trk Hi. exists trk. split; [| reflexivity].
      apply lookup_app_l_Some, Hi.
    + split; [rewrite length_map; lia |].
      intros i trk Hi. exists (sort_events trk). split.
      * change (map sort_events (tracks self))
          with (sort_events <$> tracks self).
        rewrite list_lookup_fmap, Hi. reflexivity.
      * apply Permutation_submseteq. symmetry. apply sort_by_tick_perm.
Qed.

(** X12.  No sequence of public calls removes anything: the number of tracks
    never goes down, every track stays at its index, and every event a track
    holds stays in that track (perhaps at another position, after [save]). *)
Theorem do_calls_never_remove (cs : list call) (self : MidiWriter) :
  grows (tracks self) (tracks (do_calls cs self)).
Proof.
  revert self. induction cs as [| c cs IH]; intros self.
  - apply grows_refl.
  - simpl. eapply grows_trans; [apply perform_grows | apply IH].
Qed.

(** X13.  Two mutators that refer to different tracks commute: the writer
    after both calls is the same in either order, whatever the arguments
    (valid or not) and whether or not the calls have to create tracks. *)
Theorem mutators_on_different_tracks_commute
    (c1 c2 : call) (t1 t2 : Z) (self : MidiWriter) :
  target_track c1 = Some t1 -> target_track c2 = Some t2 -> t1 <> t2 ->
  do_calls [c1; c2] self = do_calls [c2; c1] self.
Proof.
  intros Ht1 Ht2 Hne. simpl. unfold do_call.
  destruct (perform_shape c1 t1 Ht1)
    as [Hnoop1 | (Hpos1 & evs1 & record1 & Hrec1 & Hshape1)].
  { rewrite !Hnoop1. reflexivity. }
  destruct (perform_shape c2 t2 Ht2)
    as [Hnoop2 | (Hpos2 & evs2 & record2 & Hrec2 & Hshape2)].
  { rewrite !Hnoop2. reflexivity. }
  rewrite (Hshape1 self), (Hshape2 self), Hshape1, Hshape2. simpl.
  f_equal.
  - apply list_eq. intros i.
    rewrite !appended_to_lookup, !appended_to_length,
      !appended_to_track_at by assumption.
    assert (Z.to_nat t1 <> Z.to_nat t2) by lia.
    repeat case_decide; try lia; try reflexivity; congruence.
  - destruct Hrec1 as [Hid1 | ->]; [rewrite !Hid1; reflexivity |].
    destruct Hrec2 as [Hid2 | ->]; [rewrite !Hid2; reflexivity |].
    congruence.
Qed.

Lemma mutators_on_different_tracks_commute_witness :
  target_track (CallAddNote 2 0 0 480 60 100) = Some 2 /\
  target_track (CallSetChannel 0 13) = Some 0 /\ 2 <> 0 /\
  do_calls [CallAddNote 2 0 0 480 60 100; CallSetChannel 0 13] new_MidiWriter
  = do_calls [CallSetChannel 0 13; CallAddNote 2 0 0 480 60 100]
      new_MidiWriter.
Proof.
  split; [reflexivity |]. split; [reflexivity |]. split; [lia |].
  apply (mutators_on_different_tracks_commute
           (CallAddNote 2 0 0 480 60 100) (CallSetChannel 0 13) 2 0);
    [reflexivity | reflexivity | lia].
Defined.

(** ** Bounds of [save] *)

Lemma save_raises_many_tracks (self : MidiWriter) :
  32767 < len (tracks self) -> snd (save self) = Raised StructError.
Proof.
  intros Hlen. rewrite save_written. unfold header_chunk.
  destruct (Z.gtb_spec (len (tracks self)) 1); [| lia].
  change (struct_pack_h 1) with (Returned [x00; x01]). simpl.
  unfold struct_pack_h.
  destruct (Z.leb_spec (len (tracks self)) 32767); [lia |].
  rewrite andb_false_r. reflexivity.
Qed.

(** X14.  [save] cannot write more than 32767 tracks: with more, packing the
    header raises [struct.error] and nothing is written.  One accepted
    [addNote] with [track >= 32767] is enough to get there. *)
Theorem save_too_many_tracks :
  (forall self : MidiWriter,
     32767 < len (tracks self) -> snd (save self) = Raised StructError) /\
  (forall (track channel start duration pitch velocity : Z)
          (self : MidiWriter),
     rejected (CallAddNote track channel start duration pitch velocity)
       = false ->
     32767 <= track ->
     snd (save (after (addNote track channel start duration pitch velocity
                         self))) = Raised StructError).
Proof.
  pose proof save_raises_many_tracks as Hmany.
  split; [exact Hmany |].
  intros track channel start duration pitch velocity self Hacc Htrack.
  apply Hmany.
  destruct (perform_shape
              (CallAddNote track channel start duration pitch velocity)
              track eq_refl) as [Hnoop | (Ht & evs & record & _ & Hshape)].
  - destruct (addNote_accepted track channel start duration pitch velocity
                (mkMidiWriter 480 [] ∅) Hacc) as (on & off & _ & _ & Hcall).
    specialize (Hnoop (mkMidiWriter 480 [] ∅)). simpl in Hnoop.
    rewrite Hcall in Hnoop. simpl in Hnoop.
    apply (f_equal (fun w => length (tracks w))) in Hnoop. simpl in Hnoop.
    rewrite !length_alter in Hnoop. unfold extend_to, len in Hnoop.
    rewrite length_app, length_replicate in Hnoop. simpl in Hnoop. lia.
  - specialize (Hshape self). simpl in Hshape. rewrite Hshape. simpl.
    unfold len. rewrite appended_to_length by exact Ht. lia.
Qed.

Lemma save_too_many_tracks_witness :
  rejected (CallAddNote 32767 0 0 480 60 100) = false /\
  32767 <= 32767 /\
  snd (save (after (addNote 32767 0 0 480 60 100 new_MidiWriter)))
  = Raised StructError.
Proof.
  split; [reflexivity |]. split; [lia |].
  apply (proj2 save_too_many_tracks 32767 0 0 480 60 100 new_MidiWriter);
    [reflexivity | lia].
Defined.

Lemma track_payload_bytes (trk : Track) :
  track_payload trk = Returned (track_bytes trk).
Proof.
  unfold track_payload, track_bytes.
  rewrite (render_events_deltas (events trk) 0 []). reflexivity.
Qed.

Lemma struct_pack_I_value (v : Z) :
  0 <= v < 2 ^ 32 ->
  exists l3 l2 l1 l0 : byte,
    struct_pack_I v = Returned [l3; l2; l1; l0] /\
    ((Z_of_byte l3 * 256 + Z_of_byte l2) * 256 + Z_of_byte l1) * 256
    + Z_of_byte l0 = v.
Proof.
  intros Hv. unfold struct_pack_I.
  destruct (Z.leb_spec 0 v); [| lia].
  destruct (Z.ltb_spec v (2 ^ 32)); [| lia]. cbv [andb].
  destruct (py_bytes_range (be_bytes 4 v) (be_bytes_range 4 v))
    as (bs & Hbs & Hvals).
  rewrite Hbs. simpl in Hvals.
  destruct bs as [| l3 [| l2 [| l1 [| l0 [| ? ?]]]]]; try discriminate Hvals.
  injection Hvals as Hb3 Hb2 Hb1 Hb0.
  exists l3, l2, l1, l0. split; [reflexivity |].
  rewrite Hb3, Hb2, Hb1, Hb0.
  change (2 ^ 32) with 4294967296 in *.
  assert (Hhi : 0 <= v / 256 / 256 / 256 < 256).
  { split; [repeat (apply Z.div_pos; [| lia]); lia |].
    repeat (apply Z.div_lt_upper_bound; [lia |]). lia. }
  rewrite (Z.mod_small (v / 256 / 256 / 256)) by exact Hhi.
  pose proof (Z.div_mod v 256 ltac:(lia)).
  pose proof (Z.div_mod (v / 256) 256 ltac:(lia)).
  pose proof (Z.div_mod (v / 256 / 256) 256 ltac:(lia)). lia.
Qed.

Lemma track_chunk_too_long (trk : Track) :
  2 ^ 32 <= len (track_bytes trk) -> track_chunk trk = Raised StructError.
Proof.
  intros Hlen. unfold track_chunk. rewrite track_payload_bytes. simpl.
  unfold struct_pack_I.
  destruct (Z.ltb_spec (len (track_bytes trk)) (2 ^ 32)); [lia |].
  rewrite andb_false_r. reflexivity.
Qed.

(** X15.  The payload of a track never fails to build and always ends with
    the end-of-track event [00 FF 2F 00]; for a track without events it is
    just that.  The chunk is [MTrk], the payload length as a big-endian
    32-bit number, and the payload; a payload of [2^32] bytes or more raises
    [struct.error] instead. *)
Theorem track_chunk_layout (trk : Track) :
  exists body : bytes,
    let payload := body ++ [x00; xff; x2f; x00] in
    track_payload trk = Returned payload /\
    (events trk = [] -> body = []) /\
    (len payload < 2 ^ 32 ->
     exists l3 l2 l1 l0 : byte,
       track_chunk trk = Returned (MTrk ++ [l3; l2; l1; l0] ++ payload) /\
       ((Z_of_byte l3 * 256 + Z_of_byte l2) * 256 + Z_of_byte l1) * 256
       + Z_of_byte l0 = len payload) /\
    (2 ^ 32 <= len payload -> track_chunk trk = Raised StructError).
Proof.
  exists (concat (zip_with (fun d (e : event) => var_len_bytes d ++ snd e)
                    (render_deltas 0 (events trk)) (events trk))).
  fold (track_bytes trk). simpl.
  split; [apply track_payload_bytes |].
  split; [intros ->; reflexivity |].
  unfold track_chunk. rewrite track_payload_bytes. simpl.
  split.
  - intros Hlen.
    destruct (struct_pack_I_value (len (track_bytes trk)))
      as (l3 & l2 & l1 & l0 & Hpack & Hval).
    { split; [unfold len; lia | exact Hlen]. }
    exists l3, l2, l1, l0. rewrite Hpack. split; [reflexivity | exact Hval].
  - intros Hlen. rewrite <- (track_chunk_too_long trk Hlen).
    unfold track_chunk. rewrite track_payload_bytes. reflexivity.
Qed.

Lemma track_chunk_layout_witness :
  events new_Track = [] /\
  exists body : bytes,
    track_payload new_Track = Returned (body ++ [x00; xff; x2f; x00]) /\
    body = [].
Proof.
  split; [reflexivity |].
  destruct (track_chunk_layout new_Track) as (body & Hpayload & Hempty & _).
  exists body. split; [exact Hpayload | apply Hempty; reflexivity].
Defined.

Lemma track_chunk_returns (trk : Track) :
  len (track_bytes trk) < 2 ^ 32 ->
  exists chunk : bytes,
    track_chunk trk = Returned chunk /\
    len chunk = 8 + len (track_bytes trk).
Proof.
  intros Hlen. unfold track_chunk. rewrite track_payload_bytes. simpl.
  destruct (struct_pack_I_value (len (track_bytes trk)))
    as (l3 & l2 & l1 & l0 & Hpack & _).
  { split; [unfold len; lia | exact Hlen]. }
  rewrite Hpack. eexists. split; [reflexivity |].
  unfold len, MTrk. simpl length. lia.
Qed.

Lemma track_chunk_returned (trk : Track) (chunk : bytes) :
  track_chunk trk = Returned chunk ->
  len (track_bytes trk) < 2 ^ 32 /\ len chunk = 8 + len (track_bytes trk).
Proof.
  intros Hchunk.
  destruct (Z.lt_ge_cases (len (track_bytes trk)) (2 ^ 32)) as [Hlt | Hge].
  - split; [exact Hlt |].
    destruct (track_chunk_returns trk Hlt) as (chunk' & Hchunk' & Hlen).
    congruence.
  - rewrite (track_chunk_too_long trk Hge) in Hchunk. discriminate Hchunk.
Qed.

Lemma render_tracks_size (trks : list Track) :
  forall track_chunks,
    Forall (fun trk => len (track_bytes trk) < 2 ^ 32) trks ->
    exists written,
      render_tracks trks track_chunks = Returned written /\
      len written =
      len track_chunks + total (map (fun trk => 8 + len (track_bytes trk)) trks).
Proof.
  induction trks as [| trk rest IH]; intros track_chunks Hall; simpl.
  - exists track_chunks. split; [reflexivity |]. unfold total. simpl. lia.
  - inversion Hall as [| ? ? Htrk Hrest]; subst.
    destruct (track_chunk_returns trk Htrk) as (chunk & -> & Hlen). simpl.
    destruct (IH (track_chunks ++ chunk) Hrest) as (written & -> & Hsize).
    exists written. split; [reflexivity |].
    rewrite Hsize. unfold len in *. rewrite length_app.
    unfold total in *. simpl. lia.
Qed.

Lemma render_tracks_returned (trks : list Track) :
  forall track_chunks written,
    render_tracks trks track_chunks = Returned written ->
    Forall (fun trk => len (track_bytes trk) < 2 ^ 32) trks.
Proof.
  induction trks as [| trk rest IH]; intros track_chunks written H;
    [constructor |].
  simpl in H. destruct (track_chunk trk) as [chunk | e] eqn:Hchunk;
    [| discriminate H].
  simpl in H. constructor.
  - apply (track_chunk_returned trk chunk Hchunk).
  - apply (IH _ _ H).
Qed.

Lemma header_chunk_returns (self : MidiWriter) :
  ticks_per_quarter self = 480 ->
  len (tracks self) <= 32767 ->
  exists header, header_chunk self = Returned header /\ len header = 14.
Proof.
  intros Htpq Hlen.
  assert (Hnonneg : 0 <= len (tracks self)) by (unfold len; lia).
  destruct (struct_pack_h_value (if len (tracks self) >? 1 then 1 else 0))
    as (f1 & f0 & Hf & _).
  { destruct (len (tracks self) >? 1); lia. }
  destruct (struct_pack_h_value (len (tracks self)) ltac:(lia))
    as (n1 & n0 & Hn & _).
  unfold header_chunk. rewrite Hf, Hn, Htpq. simpl.
  eexists. split; reflexivity.
Qed.

(** X16.  [save] gets through all its [struct.pack] calls, and so reaches
    the [open] of the output file with the whole file content built, exactly
    when the writer has at most 32767 tracks and every track payload is
    shorter than [2^32] bytes.  That content has 14 bytes of header and, for
    every track, 8 bytes of chunk header and the payload.  (Whether the file
    can then be opened and written is outside the model.) *)
Theorem save_renders_iff (self : MidiWriter) :
  ticks_per_quarter self = 480 ->
  ((exists written, snd (save self) = Returned written) <->
   len (tracks self) <= 32767 /\
   Forall (fun trk => len (track_bytes (sort_events trk)) < 2 ^ 32)
          (tracks self)) /\
  (forall written,
     snd (save self) = Returned written ->
     len written =
     14 + total (map (fun trk => 8 + len (track_bytes (sort_events trk)))
                     (tracks self))).
Proof.
  intros Htpq.
  assert (Hsize : forall written,
            snd (save self) = Returned written ->
            len (tracks self) <= 32767 /\
            Forall (fun trk => len (track_bytes (sort_events trk)) < 2 ^ 32)
                   (tracks self) /\
            len written =
            14 + total (map (fun trk => 8 + len (track_bytes (sort_events trk)))
                            (tracks self))).
  { intros written Hsave.
    destruct (Z.le_gt_cases (len (tracks self)) 32767) as [Hle | Hgt].
    2: { rewrite (save_raises_many_tracks self) in Hsave by lia.
         discriminate Hsave. }
    rewrite save_written in Hsave.
    destruct (header_chunk_returns self Htpq Hle) as (header & Hheader & Hh).
    rewrite Hheader in Hsave. simpl in Hsave.
    destruct (render_tracks (map sort_events (tracks self)) [])
      as [track_chunks | e] eqn:Hrender; [| discriminate Hsave].
    injection Hsave as <-.
    pose proof (render_tracks_returned _ _ _ Hrender) as Hall.
    destruct (render_tracks_size _ [] Hall) as (w & Hw & Hlenw).
    rewrite Hrender in Hw. injection Hw as <-.
    split; [exact Hle |]. split.
    - apply Forall_map in Hall. exact Hall.
    - unfold len in *. rewrite length_app, Nat2Z.inj_add, Hlenw, Hh.
      rewrite map_map. simpl. lia. }
  split; [split |].
  - intros [written Hsave]. destruct (Hsize written Hsave) as (H1 & H2 & _).
    split; assumption.
  - intros [Hle Hall]. rewrite save_written.
    destruct (header_chunk_returns self Htpq Hle) as (header & -> & _).
    simpl.
    destruct (render_tracks_size (map sort_events (tracks self)) [])
      as (w & -> & _).
    { apply Forall_map. exact Hall. }
    eexists. reflexivity.
  - intros written Hsave. apply (Hsize written Hsave).
Qed.

Lemma save_renders_iff_witness :
  let self := after (addNote 1 0 0 480 60 100 new_MidiWriter) in
  ticks_per_quarter self = 480 /\
  (len (tracks self) <= 32767 /\
   Forall (fun trk => len (track_bytes (sort_events trk)) < 2 ^ 32)
          (tracks self)) /\
  (exists written, snd (save self) = Returned written) /\
  (forall written,
     snd (save self) = Returned written ->
     len written =
     14 + total (map (fun trk => 8 + len (track_bytes (sort_events trk)))
                     (tracks self))).
Proof.
  intros self.
  assert (Htpq : ticks_per_quarter self = 480) by reflexivity.
  assert (Hfits : len (tracks self) <= 32767 /\
                  Forall (fun trk => len (track_bytes (sort_events trk))
                                     < 2 ^ 32) (tracks self)).
  { split; [vm_compute; discriminate |].
    repeat constructor; vm_compute; reflexivity. }
  split; [exact Htpq |]. split; [exact Hfits |].
  split.
  - apply (proj2 (proj1 (save_renders_iff self Htpq)) Hfits).
  - apply (proj2 (save_renders_iff self Htpq)).
Defined.

(** ** Reading a rendered track back *)

Lemma add_event_writer (tick : Z) (event_bytes : bytes) (trk : Track) :
  writer_event (tick, event_bytes) ->
  Forall writer_event (events trk) ->
  Forall writer_event (events (add_event tick event_bytes trk)).
Proof.
  intros Hev Htrk. unfold add_event. simpl.
  apply Forall_app. split; [exact Htrk |].
  constructor; [exact Hev | constructor].
Qed.

Lemma three_bytes (bs : bytes) (z1 z2 z3 : Z) :
  map Z_of_byte bs = [z1; z2; z3] ->
  exists b1 b2 b3 : byte,
    bs = [b1; b2; b3] /\ Z_of_byte b1 = z1 /\ Z_of_byte b2 = z2
    /\ Z_of_byte b3 = z3.
Proof.
  intros H. destruct bs as [| b1 [| b2 [| b3 [| ? ?]]]]; try discriminate H.
  injection H as H1 H2 H3. exists b1, b2, b3. auto.
Qed.

(** Every event a public call puts into a track is one of the messages of
    [writer_message], at a tick that is not negative. *)
Lemma perform_writer_events (c : call) (self : MidiWriter) :
  Forall (fun trk => Forall writer_event (events trk)) (tracks self) ->
  Forall (fun trk => Forall writer_event (events trk))
         (tracks (after (perform c self))).
Proof.
  intros Hinv.
  assert (Hnew : Forall writer_event (events new_Track)) by constructor.
  destruct c as [| channel program | track start bpm
                 | track channel start duration pitch velocity |]; simpl.
  - apply Forall_app. split; [exact Hinv | repeat constructor].
  - destruct (setChannel_spec channel program self) as (ev & Hev & ->). simpl.
    apply alter_Forall; [| apply extend_to_Forall; assumption].
    intros trk. apply add_event_writer. split; [simpl; lia |].
    right. left. simpl.
    destruct ev as [| s [| d [| ? ?]]]; try discriminate Hev.
    injection Hev as Hs _. exists s, d. split; [reflexivity |].
    change (Z.lor 0xC0 (Z.land channel 0x0F))
      with (Z.lor (12 * 16) (Z.land channel 0x0F)) in Hs.
    rewrite status_byte_value in Hs by lia.
    pose proof (Z.mod_pos_bound channel 16 ltac:(lia)). lia.
  - destruct (rejected (CallAddBPM track start bpm)) eqn:Hrej.
    + destruct (addBPM_rejected _ _ _ self Hrej) as (e & ->). exact Hinv.
    + destruct (validate_BPM_accepted _ _ _ Hrej) as (_ & _ & Hs & _).
      destruct (Z.lt_ge_cases (Z.quot 60000000 bpm) (2 ^ 24)) as [Hfit | Hbig].
      * destruct (addBPM_accepted _ _ _ self Hrej Hfit) as (tb & Htb & ->).
        simpl.
        apply alter_Forall; [| apply extend_to_Forall; assumption].
        intros trk. apply add_event_writer. split; [exact Hs |].
        right. right. simpl in Htb.
        apply three_bytes in Htb as (a & b & c & -> & _).
        exists a, b, c. reflexivity.
      * rewrite (addBPM_overflow _ _ _ self Hrej Hbig). exact Hinv.
  - destruct (rejected
                (CallAddNote track channel start duration pitch velocity))
      eqn:Hrej.
    + destruct (addNote_rejected _ _ _ _ _ _ self Hrej) as (e & ->). exact Hinv.
    + destruct (validate_Note_accepted _ _ _ _ _ _ Hrej) as (_ & _ & Hs & Hd).
      destruct (addNote_accepted _ _ _ _ _ _ self Hrej)
        as (on & off & Hon & Hoff & ->).
      simpl.
      apply three_bytes in Hon as (s1 & p1 & v1 & -> & Hs1 & _).
      apply three_bytes in Hoff as (s2 & p2 & v2 & -> & Hs2 & _).
      pose proof (Z.mod_pos_bound channel 16 ltac:(lia)) as Hch.
      change (Z.lor 0x90 (Z.land channel 0x0F))
        with (Z.lor (9 * 16) (Z.land channel 0x0F)) in Hs1.
      change (Z.lor 0x80 (Z.land channel 0x0F))
        with (Z.lor (8 * 16) (Z.land channel 0x0F)) in Hs2.
      rewrite status_byte_value in Hs1, Hs2 by lia.
      apply alter_Forall.
      { intros trk. apply add_event_writer. split; [simpl; lia |].
        left. exists s2, p2, v2. split; [reflexivity | lia]. }
      apply alter_Forall.
      { intros trk. apply add_event_writer. split; [simpl; lia |].
        left. exists s1, p1, v1. split; [reflexivity | lia]. }
      apply extend_to_Forall; assumption.
  - apply Forall_map. eapply Forall_impl; [exact Hinv |].
    intros trk. apply sort_by_tick_Forall.
Qed.

Lemma do_calls_writer_events (cs : list call) :
  forall self,
    Forall (fun trk => Forall writer_event (events trk)) (tracks self) ->
    Forall (fun trk => Forall writer_event (events trk))
           (tracks (do_calls cs self)).
Proof.
  induction cs as [| c cs IH]; intros self Hinv; [exact Hinv |].
  apply IH, perform_writer_events, Hinv.
Qed.

(** The reader takes one message of the writer off the front of a payload. *)
Lemma parse_track_message (fuel : nat) (prev_tick tick : Z)
    (message more : bytes) :
  prev_tick <= tick -> writer_message message ->
  parse_track (S fuel) prev_tick
    (var_len_bytes (tick - prev_tick) ++ message ++ more) =
  match parse_track fuel tick more with
  | None => None
  | Some evs => Some ((tick, message) :: evs)
  end.
Proof.
  intros Htick Hmsg.
  change (parse_track (S fuel) prev_tick
            (var_len_bytes (tick - prev_tick) ++ message ++ more))
    with (match decode_var_len
                  (var_len_bytes (tick - prev_tick) ++ message ++ more) with
          | None => None
          | Some (delta, message0) =>
              let tick0 := prev_tick + delta in
              match message0 with
              | [] => None
              | status :: after_status =>
                  if Z_of_byte status =? 0xFF then
                    match after_status with
                    | [] => None
                    | type :: after_type =>
                        match decode_var_len after_type with
                        | None => None
                        | Some (count, body) =>
                            if Z_of_byte type =? 0x2F then
                              match body with
                              | [] => if count =? 0 then Some [] else None
                              | _ :: _ => None
                              end
                            else if Z.of_nat (length body) <? count then None
                            else
                              let head :=
                                take (length message0 - length body) message0 in
                              let n := Z.to_nat count in
                              match parse_track fuel tick0 (drop n body) with
                              | None => None
                              | Some evs =>
                                  Some ((tick0, head ++ take n body) :: evs)
                              end
                        end
                    end
                  else
                    match event_data_length status with
                    | None => None
                    | Some n =>
                        if (length after_status <? n)%nat then None
                        else
                          match parse_track fuel tick0 (drop n after_status) with
                          | None => None
                          | Some evs =>
                              Some ((tick0, status :: take n after_status) :: evs)
                          end
                    end
              end
          end).
  rewrite (decode_encoded (tick - prev_tick) (var_len_bytes (tick - prev_tick)))
    by (lia || apply encode_var_len_bytes).
  cbv zeta. replace (prev_tick + (tick - prev_tick)) with tick by lia.
  destruct Hmsg as [(s & d1 & d2 & -> & Hs) | [(s & d & -> & Hs)
                   | (a & b & c & ->)]].
  - simpl app. cbv beta iota.
    destruct (Z.eqb_spec (Z_of_byte s) 0xFF) as [Heq | _]; [lia |].
    unfold event_data_length.
    destruct (Z.leb_spec 0x80 (Z_of_byte s)); [| lia].
    destruct (Z.ltb_spec (Z_of_byte s) 0xC0); [| lia].
    reflexivity.
  - simpl app. cbv beta iota.
    destruct (Z.eqb_spec (Z_of_byte s) 0xFF) as [Heq | _]; [lia |].
    unfold event_data_length.
    destruct (Z.leb_spec 0x80 (Z_of_byte s)); [| lia].
    destruct (Z.ltb_spec (Z_of_byte s) 0xC0); [lia |].
    destruct (Z.leb_spec 0xC0 (Z_of_byte s)); [| lia].
    destruct (Z.ltb_spec (Z_of_byte s) 0xE0); [| lia].
    reflexivity.
  - simpl app. cbv beta iota.
    change (Z_of_byte xff =? 0xFF) with true. cbv iota.
    change (decode_var_len (x03 :: a :: b :: c :: more))
      with (Some (3, a :: b :: c :: more)).
    change (Z_of_byte x51 =? 0x2F) with false. cbv iota.
    destruct (Z.ltb_spec (Z.of_nat (length (a :: b :: c :: more))) 3)
      as [Hshort | _]; [simpl length in Hshort; lia |].
    replace (S (S (S (S (S (S (length more))))))
             - length (a :: b :: c :: more))%nat with 3%nat
      by (simpl length; lia).
    reflexivity.
Qed.

Lemma parse_rendered (evs : list event) :
  forall (fuel : nat) (prev_tick : Z),
    (length evs < fuel)%nat ->
    StronglySorted tick_le evs ->
    Forall (fun e : event => prev_tick <= fst e) evs ->
    Forall (fun e : event => writer_message (snd e)) evs ->
    parse_track fuel prev_tick
      (concat (zip_with (fun d (e : event) => var_len_bytes d ++ snd e)
                 (render_deltas prev_tick evs) evs)
       ++ [x00; xff; x2f; x00])
    = Some evs.
Proof.
  induction evs as [| [tick ev] rest IH];
    intros fuel prev_tick Hfuel Hsorted Hprev Hmsg.
  - destruct fuel as [| fuel]; [simpl in Hfuel; lia | reflexivity].
  - destruct fuel as [| fuel]; [simpl in Hfuel; lia |].
    inversion Hsorted as [| ? ? Hsorted' Hall]; subst.
    inversion Hprev as [| ? ? Hhead _]; subst. simpl in Hhead.
    inversion Hmsg as [| ? ? Hev Hmsg']; subst. simpl in Hev.
    simpl concat. rewrite <- !app_assoc.
    rewrite (parse_track_message fuel prev_tick tick ev _ Hhead Hev).
    rewrite IH; [reflexivity | simpl in Hfuel; lia | | |]; assumption.
Qed.

Lemma writer_message_nonempty (bs : bytes) :
  writer_message bs -> (1 <= length bs)%nat.
Proof.
  intros [(s & d1 & d2 & -> & _) | [(s & d & -> & _) | (a & b & c & ->)]];
    simpl; lia.
Qed.

Lemma rendered_length (evs : list event) :
  forall prev_tick,
    Forall (fun e : event => writer_message (snd e)) evs ->
    (length evs <=
     length (concat (zip_with (fun d (e : event) => var_len_bytes d ++ snd e)
                       (render_deltas prev_tick evs) evs)))%nat.
Proof.
  induction evs as [| [tick ev] rest IH]; intros prev_tick Hmsg; simpl;
    [lia |].
  inversion Hmsg as [| ? ? Hev Hmsg']; subst. simpl in Hev.
  apply writer_message_nonempty in Hev.
  specialize (IH tick Hmsg'). rewrite !length_app. lia.
Qed.

(** X17.  A saved track can be read back by a reader that knows the file
    format only.  After any sequence of public calls and [save], a Standard
    MIDI File track reader that finds the end of each message from its
    status byte (and from the count of a meta message), decodes the deltas
    with the variable-length decoder and sums them, gets from each track
    payload exactly the events of the track with their ticks, and stops at
    the end-of-track message with nothing left over. *)
Theorem saved_track_reads_back (cs : list call) :
  Forall
    (fun trk =>
       exists payload : bytes,
         track_payload trk = Returned payload /\
         parse_track (length payload) 0 payload = Some (events trk))
    (tracks (fst (save (do_calls cs new_MidiWriter)))).
Proof.
  pose proof (do_calls_writer_events cs new_MidiWriter) as Hinv.
  specialize (Hinv ltac:(constructor)).
  simpl. apply Forall_map.
  eapply Forall_impl; [exact Hinv |].
  intros trk Htrk. exists (track_bytes (sort_events trk)).
  split; [apply track_payload_bytes |].
  assert (Hsorted_events :
            Forall writer_event (events (sort_events trk)))
    by (apply sort_by_tick_Forall, Htrk).
  assert (Hmsg : Forall (fun e : event => writer_message (snd e))
                        (events (sort_events trk))).
  { eapply Forall_impl; [exact Hsorted_events |]. intros e He. apply He. }
  unfold track_bytes. apply parse_rendered.
  - rewrite length_app. change (length [x00; xff; x2f; x00]) with 4%nat.
    pose proof (rendered_length (events (sort_events trk)) 0 Hmsg). lia.
  - apply sort_by_tick_sorted.
  - eapply Forall_impl; [exact Hsorted_events |]. intros e He. apply He.
  - exact Hmsg.
Qed.

(** ** The drum patterns of [midi_test.py] *)

Lemma byte_of_Z_of_byte (b : byte) : byte_of_Z (Z_of_byte b) = Some b.
Proof.
  unfold byte_of_Z, Z_of_byte.
  destruct (Z.ltb_spec (Z.of_N (Byte.to_N b)) 0); [lia |].
  rewrite N2Z.id. apply Byte.of_to_N.
Qed.

Lemma Z_of_byte_inj (b b' : byte) : Z_of_byte b = Z_of_byte b' -> b = b'.
Proof.
  intros H. apply (f_equal byte_of_Z) in H.
  rewrite !byte_of_Z_of_byte in H. congruence.
Qed.

Lemma appended_to_app (t : Z) (evs1 evs2 : list event) (trks : list Track) :
  0 <= t ->
  appended_to t evs2 (appended_to t evs1 trks) =
  appended_to t (evs1 ++ evs2) trks.
Proof.
  intros Ht. apply list_eq. intros i.
  rewrite !appended_to_lookup, !appended_to_length, !appended_to_track_at
    by assumption.
  repeat case_decide; try lia; try reflexivity.
  simpl. rewrite <- app_assoc. reflexivity.
Qed.

Lemma with_events_app (evs1 evs2 : list event) (trks : list Track) :
  with_events (evs1 ++ evs2) trks = with_events evs2 (with_events evs1 trks).
Proof.
  destruct evs1 as [| e1 evs1]; [reflexivity |].
  destruct evs2 as [| e2 evs2]; [rewrite app_nil_r; reflexivity |].
  simpl. symmetry. apply (appended_to_app 0); lia.
Qed.

(** One [x] of a pattern: the call is accepted and adds the two events. *)
Lemma addNote_drum (drum_pitch i : Z) (self : MidiWriter) :
  0 <= i ->
  addNote 0 DRUM_CHANNEL (i * TICK_PER_16TH) TICK_PER_16TH drum_pitch
          DEFAULT_VELOCITY self =
  mkOutcome
    (set_tracks
       (appended_to 0
          [(120 * i, [x99; pitch_byte drum_pitch; x78]);
           (120 * i + 120, [x89; pitch_byte drum_pitch; x00])]
          (tracks self))
       self)
    [] None.
Proof.
  intros Hi. change TICK_PER_16TH with 120. change DRUM_CHANNEL with 9.
  change DEFAULT_VELOCITY with 120. rewrite (Z.mul_comm i 120).
  assert (Hacc : rejected (CallAddNote 0 9 (120 * i) 120 drum_pitch 120)
                 = false).
  { simpl. destruct (Z.ltb_spec (120 * i) 0); [lia | reflexivity]. }
  destruct (addNote_accepted 0 9 (120 * i) 120 drum_pitch 120 self Hacc)
    as (note_on & note_off & Hon & Hoff & ->).
  assert (Hpitch : forall b, Z_of_byte b = Z.land drum_pitch 0x7F ->
                             b = pitch_byte drum_pitch).
  { intros b Hb. unfold pitch_byte. rewrite <- Hb, byte_of_Z_of_byte.
    reflexivity. }
  destruct note_on as [| a1 [| a2 [| a3 [| ? ?]]]]; try discriminate Hon.
  destruct note_off as [| b1 [| b2 [| b3 [| ? ?]]]]; try discriminate Hoff.
  injection Hon as Ha1 Ha2 Ha3. injection Hoff as Hb1 Hb2 Hb3.
  apply Hpitch in Ha2, Hb2. subst a2 b2.
  assert (a1 = x99) as -> by (apply Z_of_byte_inj; rewrite Ha1; reflexivity).
  assert (a3 = x78) as -> by (apply Z_of_byte_inj; rewrite Ha3; reflexivity).
  assert (b1 = x89) as -> by (apply Z_of_byte_inj; rewrite Hb1; reflexivity).
  assert (b3 = x00) as -> by (apply Z_of_byte_inj; rewrite Hb3; reflexivity).
  f_equal. f_equal. unfold appended_to. rewrite list_alter_alter_eq.
  apply list_alter_ext; [| reflexivity].
  intros trk _. simpl. unfold add_event. simpl.
  rewrite <- app_assoc. reflexivity.
Qed.

Lemma set_tracks_twice (l1 l2 : list Track) (self : MidiWriter) :
  set_tracks l2 (set_tracks l1 self) = set_tracks l2 self.
Proof. reflexivity. Qed.

(** X18.  The bar separators [|] of a drum pattern are only for the eye:
    the loop over a pattern does the same with and without them. *)
Theorem drum_pattern_loop_ignores_bars (pattern : list ascii)
    (drum_pitch i : Z) (myMidi : MidiWriter) (out : list string) :
  drum_pattern_loop
    (List.filter (fun c => negb (Ascii.eqb c "|")) pattern)
    drum_pitch i myMidi out =
  drum_pattern_loop pattern drum_pitch i myMidi out.
Proof.
  revert i myMidi out.
  induction pattern as [| c rest IH]; intros i myMidi out; [reflexivity |].
  simpl List.filter. destruct (Ascii.eqb_spec c "|") as [-> | Hbar].
  - simpl. rewrite Z.add_0_r, app_nil_r. apply IH.
  - simpl negb. cbv iota.
    change (drum_pattern_loop (c :: rest) drum_pitch i myMidi out)
      with (let r :=
              if Ascii.eqb c "x"
              then addNote 0 DRUM_CHANNEL (i * TICK_PER_16TH) TICK_PER_16TH
                           drum_pitch DEFAULT_VELOCITY myMidi
              else mkOutcome myMidi [] None in
            match raised r with
            | Some e => (after r, out ++ printed r, Some e)
            | None =>
                drum_pattern_loop rest drum_pitch
                  (i + (if negb (Ascii.eqb c "|") then 1 else 0))
                  (after r) (out ++ printed r)
            end).
    change (drum_pattern_loop
              (c :: List.filter (fun c => negb (Ascii.eqb c "|")) rest)
              drum_pitch i myMidi out)
      with (let r :=
              if Ascii.eqb c "x"
              then addNote 0 DRUM_CHANNEL (i * TICK_PER_16TH) TICK_PER_16TH
                           drum_pitch DEFAULT_VELOCITY myMidi
              else mkOutcome myMidi [] None in
            match raised r with
            | Some e => (after r, out ++ printed r, Some e)
            | None =>
                drum_pattern_loop
                  (List.filter (fun c => negb (Ascii.eqb c "|")) rest)
                  drum_pitch
                  (i + (if negb (Ascii.eqb c "|") then 1 else 0))
                  (after r) (out ++ printed r)
            end).
    cbv zeta. destruct (raised _); [reflexivity | apply IH].
Qed.

Lemma drum_pattern_loop_events (pattern : list ascii) (drum_pitch i : Z)
    (myMidi : MidiWriter) (out : list string) :
  0 <= i ->
  drum_pattern_loop pattern drum_pitch i myMidi out =
  (set_tracks (with_events (drum_events pattern drum_pitch i) (tracks myMidi))
              myMidi,
   out, None).
Proof.
  revert i myMidi out.
  induction pattern as [| c rest IH]; intros i myMidi out Hi.
  - simpl. rewrite set_tracks_same. reflexivity.
  - simpl drum_pattern_loop. simpl drum_events.
    destruct (Ascii.eqb_spec c "x") as [-> | Hx].
    + rewrite (addNote_drum drum_pitch i myMidi Hi). simpl.
      rewrite IH by lia. rewrite app_nil_r. simpl tracks.
      rewrite set_tracks_twice. f_equal. f_equal. f_equal. symmetry.
      exact (with_events_app
               [(120 * i, [x99; pitch_byte drum_pitch; x78]);
                (120 * i + 120, [x89; pitch_byte drum_pitch; x00])]
               (drum_events rest drum_pitch (i + 1)) (tracks myMidi)).
    + simpl. rewrite app_nil_r.
      destruct (Ascii.eqb c "|"); simpl.
      * rewrite Z.add_0_r. apply IH, Hi.
      * apply IH. lia.
Qed.

(** X19.  A drum pattern that starts at a step [i >= 0] never has a note
    rejected: the loop prints nothing and raises nothing.  Every [x] adds to
    track 0 a note-on [99 pitch 78] at tick [120 * step] and a note-off
    [89 pitch 00] at [120 * step + 120], in pattern order, so two events per
    [x]; every character but [|] is one step; a pattern without [x] changes
    nothing and creates no track. *)
Theorem drum_pattern_loop_notes (pattern : list ascii) (drum_pitch i : Z)
    (myMidi : MidiWriter) (out : list string) :
  0 <= i ->
  drum_pattern_loop pattern drum_pitch i myMidi out =
  (set_tracks (with_events (drum_events pattern drum_pitch i) (tracks myMidi))
              myMidi,
   out, None) /\
  length (drum_events pattern drum_pitch i) =
  (2 * length (List.filter (fun c => Ascii.eqb c "x") pattern))%nat.
Proof.
  intros Hi. split; [apply drum_pattern_loop_events, Hi |].
  clear Hi. revert i.
  induction pattern as [| c rest IH]; intros i; [reflexivity |].
  simpl. rewrite length_app, IH.
  destruct (Ascii.eqb c "x"); simpl; lia.
Qed.

Lemma drum_pattern_loop_notes_witness :
  0 <= 0 /\
  drum_pattern_loop (list_ascii_of_string "x.|x") 35 0 new_MidiWriter [] =
  (set_tracks
     (with_events (drum_events (list_ascii_of_string "x.|x") 35 0)
                  (tracks new_MidiWriter))
     new_MidiWriter,
   [], None) /\
  length (drum_events (list_ascii_of_string "x.|x") 35 0) =
  (2 * length (List.filter (fun c => Ascii.eqb c "x")
                 (list_ascii_of_string "x.|x")))%nat.
Proof.
  split; [lia |].
  apply (drum_pattern_loop_notes (list_ascii_of_string "x.|x") 35 0). lia.
Defined.

Lemma drum_patterns_loop_notes (patterns : list (string * Z)) :
  forall (myMidi : MidiWriter) (out : list string),
    drum_patterns_loop patterns myMidi out =
    (set_tracks (with_events (all_drum_events patterns) (tracks myMidi)) myMidi,
     out, None).
Proof.
  induction patterns as [| [pattern drum_pitch] rest IH]; intros myMidi out.
  - simpl. rewrite set_tracks_same. reflexivity.
  - simpl drum_patterns_loop.
    rewrite drum_pattern_loop_events by lia. rewrite IH.
    simpl tracks. rewrite set_tracks_twice.
    unfold all_drum_events. simpl. rewrite with_events_app. reflexivity.
Qed.

Lemma drum_events_nonneg (pattern : list ascii) (drum_pitch : Z) :
  forall i, 0 <= i ->
    Forall (fun e : event => 0 <= fst e) (drum_events pattern drum_pitch i).
Proof.
  induction pattern as [| c rest IH]; intros i Hi; simpl; [constructor |].
  apply Forall_app. split.
  - destruct (Ascii.eqb c "x"); repeat constructor; simpl; lia.
  - apply IH. destruct (Ascii.eqb c "|"); lia.
Qed.

Lemma all_drum_events_nonneg (patterns : list (string * Z)) :
  Forall (fun e : event => 0 <= fst e) (all_drum_events patterns).
Proof.
  unfold all_drum_events.
  induction patterns as [| [pattern drum_pitch] rest IH]; simpl;
    [constructor |].
  apply Forall_app. split; [apply drum_events_nonneg; lia | exact IH].
Qed.

Lemma with_events_single (evs : list event) (trk : Track) :
  with_events evs [trk] = [mkTrack (events trk ++ evs)].
Proof.
  destruct evs as [| e evs].
  - simpl. rewrite app_nil_r. destruct trk; reflexivity.
  - reflexivity.
Qed.

Lemma insert_event_first (e : event) (l : list event) :
  Forall (fun e' : event => fst e <= fst e') l -> insert_event e l = e :: l.
Proof.
  intros H. destruct H as [| e' l' Hle _]; [reflexivity |].
  simpl. destruct (Z.leb_spec (fst e) (fst e')); [reflexivity | lia].
Qed.



(** X21.  With [bpm >= 4] every file [create_drum_midi] writes has format 0
    and one track, and that track starts with the tempo event
    [00 FF 51 03 t2 t1 t0] of value [60000000 // bpm], before every note,
    also before the notes of tick 0; the only line printed is the success
    message. *)
Theorem create_drum_midi_layout (filename : string) (bpm : Z)
    (patterns : list (string * Z)) (written : bytes) :
  4 <= bpm ->
  file (create_drum_midi filename bpm patterns) = Some written ->
  exists (l3 l2 l1 l0 t2 t1 t0 : byte) (rest : bytes),
    written =
      MThd ++ [x00; x00; x00; x06] ++ [x00; x00; x00; x01; x01; xe0]
      ++ MTrk ++ [l3; l2; l1; l0]
      ++ [x00; xff; x51; x03; t2; t1; t0] ++ rest /\
    Z_of_byte t2 * 65536 + Z_of_byte t1 * 256 + Z_of_byte t0
      = 60000000 / bpm /\
    stdout (create_drum_midi filename bpm patterns) =
      ["Successfully created " +:+ filename] /\
    error (create_drum_midi filename bpm patterns) = None.
Proof.
  intros Hbpm. unfold create_drum_midi.
  assert (Hacc : rejected (CallAddBPM 0 0 bpm) = false).
  { simpl. destruct (Z.leb_spec bpm 0); [lia | reflexivity]. }
  destruct (addBPM_tempo_event 0 0 bpm new_MidiWriter Hacc Hbpm)
    as (t2 & t1 & t0 & Htempo & ->).
  cbn [raised after printed].
  rewrite drum_patterns_loop_notes.
  change (tracks (set_tracks
            (alter (add_event 0 [xff; x51; x03; t2; t1; t0]) (Z.to_nat 0)
               (extend_to 0 (tracks new_MidiWriter))) new_MidiWriter))
    with [mkTrack [(0, [xff; x51; x03; t2; t1; t0])]].
  rewrite with_events_single, set_tracks_twice. simpl events.
  set (evs := all_drum_events patterns).
  set (tempo := (0, [xff; x51; x03; t2; t1; t0]) : event).
  rewrite save_written. simpl tracks. simpl map.
  assert (Hsort : sort_events (mkTrack (tempo :: evs))
                  = mkTrack (tempo :: sort_by_tick evs)).
  { unfold sort_events. simpl. f_equal. apply insert_event_first.
    apply sort_by_tick_Forall. apply all_drum_events_nonneg. }
  rewrite Hsort.
  change (header_chunk (set_tracks [mkTrack (tempo :: evs)] new_MidiWriter))
    with (Returned (MThd ++ [x00; x00; x00; x06]
                    ++ [x00; x00; x00; x01; x01; xe0])).
  simpl bind.
  destruct (track_chunk (mkTrack (tempo :: sort_by_tick evs)))
    as [chunk | e] eqn:Hchunk; simpl; [| discriminate].
  intros Hfile. injection Hfile as <-.
  destruct (track_chunk_returned _ _ Hchunk) as (Hlen & _).
  unfold track_chunk in Hchunk. rewrite track_payload_bytes in Hchunk.
  simpl in Hchunk.
  destruct (struct_pack_I_value
              (len (track_bytes (mkTrack (tempo :: sort_by_tick evs)))))
    as (l3 & l2 & l1 & l0 & Hpack & _).
  { split; [unfold len; lia | exact Hlen]. }
  rewrite Hpack in Hchunk. simpl in Hchunk. injection Hchunk as <-.
  exists l3, l2, l1, l0, t2, t1, t0.
  eexists. split; [| split; [exact Htempo | split; reflexivity]].
  unfold track_bytes. simpl.
  change (var_len_bytes (0 - 0)) with [x00]. simpl. reflexivity.
Qed.

Lemma create_drum_midi_layout_witness :
  4 <= 170 /\
  exists written,
    file (create_drum_midi "d.mid" 170 [("x.|x"%string, 35)]) = Some written /\
    exists (l3 l2 l1 l0 t2 t1 t0 : byte) (rest : bytes),
      written =
        MThd ++ [x00; x00; x00; x06] ++ [x00; x00; x00; x01; x01; xe0]
        ++ MTrk ++ [l3; l2; l1; l0]
        ++ [x00; xff; x51; x03; t2; t1; t0] ++ rest /\
      Z_of_byte t2 * 65536 + Z_of_byte t1 * 256 + Z_of_byte t0
        = 60000000 / 170 /\
      stdout (create_drum_midi "d.mid" 170 [("x.|x"%string, 35)]) =
        ["Successfully created " +:+ "d.mid"] /\
      error (create_drum_midi "d.mid" 170 [("x.|x"%string, 35)]) = None.
Proof.
  split; [lia |]. eexists. split; [vm_compute; reflexivity |].
  apply (create_drum_midi_layout "d.mid" 170 [("x.|x"%string, 35)]);
    [lia | vm_compute; reflexivity].
Defined.

(** ** The name tables *)

(** Looking a key up in a dictionary display: with distinct keys, the items
    of the display are exactly the bindings. *)
Lemma py_dict_from (items : list (string * Z)) :
  forall (m : gmap string Z) (key : string) (value : Z),
    NoDup (map fst items) ->
    (foldl (fun m kv => <[fst kv := snd kv]> m) m items !! key = Some value
     <-> (key, value) ∈ items \/
         ((key ∉ map fst items) /\ m !! key = Some value)).
Proof.
  induction items as [| [k0 v0] rest IH]; intros m key value Hnodup.
  - simpl. split.
    + intros H. right. split; [apply not_elem_of_nil | exact H].
    + intros [H | [_ H]]; [inversion H | exact H].
  - simpl in Hnodup. apply NoDup_cons in Hnodup as [Hfresh Hnodup].
    simpl foldl. rewrite (IH _ key value Hnodup). simpl map.
    destruct (decide (key = k0)) as [-> | Hne].
    + rewrite lookup_insert_eq. split.
      * intros [Hin | [_ Heq]].
        -- exfalso. apply Hfresh.
           change (map fst rest) with (fst <$> rest).
           apply (list_elem_of_fmap_2 fst rest (k0, value)), Hin.
        -- injection Heq as ->. left. left.
      * intros [Hin | [Hnot _]].
        -- apply elem_of_cons in Hin as [Heq | Hin].
           ++ injection Heq as ->. right. split; [exact Hfresh | reflexivity].
           ++ left. exact Hin.
        -- exfalso. apply Hnot. left.
    + rewrite lookup_insert_ne by congruence. split.
      * intros [Hin | [Hnot Hm]].
        -- left. right. exact Hin.
        -- right. split; [| exact Hm].
           intros Hin. apply elem_of_cons in Hin as [? | Hin]; [congruence |].
           apply Hnot, Hin.
      * intros [Hin | [Hnot Hm]].
        -- apply elem_of_cons in Hin as [Heq | Hin]; [congruence |].
           left. exact Hin.
        -- right. split; [| exact Hm].
           intros Hin. apply Hnot. right. exact Hin.
Qed.

Lemma py_dict_lookup (items : list (string * Z)) (key : string) (value : Z) :
  NoDup (map fst items) ->
  (py_dict items !! key = Some value <-> (key, value) ∈ items).
Proof.
  intros Hnodup. unfold py_dict.
  rewrite (py_dict_from items ∅ key value Hnodup). split.
  - intros [H | [_ H]]; [exact H |]. rewrite lookup_empty in H. discriminate.
  - intros H. left. exact H.
Qed.

Section NumberedTable.

Variable items : list (string * Z).
Variables first count : Z.
Hypothesis names_distinct : NoDup (map fst items).
Hypothesis numbers_in_order : map snd items = seqZ first count.

Lemma table_number_range (name : string) (n : Z) :
  py_dict items !! name = Some n -> first <= n < first + count.
Proof.
  intros H. apply (py_dict_lookup items name n names_distinct) in H.
  apply elem_of_seqZ. rewrite <- numbers_in_order.
  change (map snd items) with (snd <$> items).
  apply (list_elem_of_fmap_2 snd items (name, n)), H.
Qed.

Lemma table_name_of_number (n : Z) :
  first <= n < first + count ->
  exists name,
    py_dict items !! name = Some n /\
    forall name', py_dict items !! name' = Some n -> name' = name.
Proof.
  intros Hn.
  assert (Hat : forall (i : nat) (name : string) (m : Z),
            items !! i = Some (name, m) -> m = first + Z.of_nat i).
  { intros i name m Hi.
    assert (Hsnd : seqZ first count !! i = Some m).
    { rewrite <- numbers_in_order.
      change (map snd items) with (snd <$> items).
      rewrite list_lookup_fmap, Hi. reflexivity. }
    apply lookup_seqZ in Hsnd. lia. }
  assert (Hseq : seqZ first count !! Z.to_nat (n - first) = Some n).
  { apply lookup_seqZ. lia. }
  rewrite <- numbers_in_order in Hseq.
  change (map snd items) with (snd <$> items) in Hseq.
  rewrite list_lookup_fmap in Hseq.
  destruct (items !! Z.to_nat (n - first)) as [[name m] |] eqn:Hitem;
    [| discriminate Hseq].
  simpl in Hseq. injection Hseq as ->.
  exists name. split.
  - apply py_dict_lookup; [exact names_distinct |].
    apply (list_elem_of_lookup_2 _ _ _ Hitem).
  - intros name' Hname'.
    apply (py_dict_lookup items name' n names_distinct) in Hname'.
    apply list_elem_of_lookup_1 in Hname' as [j Hj].
    pose proof (Hat _ _ _ Hj) as Hjn.
    assert (j = Z.to_nat (n - first)) as -> by lia.
    rewrite Hitem in Hj. congruence.
Qed.

End NumberedTable.

Lemma ProgramMapping_distinct : NoDup (map fst ProgramMapping_NAME_TO_NUMBER).
Proof. apply (bool_decide_unpack _). vm_compute. exact I. Qed.

Lemma DrumMapping_distinct : NoDup (map fst DrumMapping_NAME_TO_NUMBER).
Proof. apply (bool_decide_unpack _). vm_compute. exact I. Qed.

(** X22.  [ProgramMapping.NAME_TO_NUMBER] names every General MIDI program
    exactly once: its 128 names are distinct and numbered 0 to 127 in order,
    so every number from 0 to 127 has one name and no other, a name that is
    looked up gives a number the mask [program & 0x7F] of [setChannel]
    leaves as it is, and [get] gives the default for any other string. *)
Theorem ProgramMapping_numbers :
  let d := py_dict ProgramMapping_NAME_TO_NUMBER in
  (forall name n,
     d !! name = Some n <-> (name, n) ∈ ProgramMapping_NAME_TO_NUMBER) /\
  (forall name n, d !! name = Some n -> 0 <= n <= 127 /\ Z.land n 0x7F = n) /\
  (forall n, 0 <= n <= 127 ->
     exists name,
       d !! name = Some n /\ forall name', d !! name' = Some n -> name' = name)
  /\
  (forall name other,
     (forall n, (name, n) ∉ ProgramMapping_NAME_TO_NUMBER) ->
     dict_get d name other = other).
Proof.
  assert (Hnums : map snd ProgramMapping_NAME_TO_NUMBER = seqZ 0 128)
    by (vm_compute; reflexivity).
  pose proof ProgramMapping_distinct as Hnodup.
  simpl. split; [| split; [| split]].
  - intros name n. apply py_dict_lookup, Hnodup.
  - intros name n H.
    pose proof (table_number_range _ 0 128 Hnodup Hnums name n H) as Hr.
    split; [lia | apply group_land_7F; lia].
  - intros n Hn. apply (table_name_of_number _ 0 128 Hnodup Hnums). lia.
  - intros name other Hnone. unfold dict_get.
    destruct (py_dict ProgramMapping_NAME_TO_NUMBER !! name) as [n |] eqn:Hn;
      [| reflexivity].
    apply (py_dict_lookup _ name n Hnodup) in Hn. destruct (Hnone n Hn).
Qed.

Lemma ProgramMapping_numbers_witness :
  py_dict ProgramMapping_NAME_TO_NUMBER !! "rock_organ"%string = Some 18 /\
  0 <= 18 <= 127 /\ Z.land 18 0x7F = 18.
Proof.
  assert (H : py_dict ProgramMapping_NAME_TO_NUMBER !! "rock_organ"%string
              = Some 18) by (vm_compute; reflexivity).
  split; [exact H |].
  apply (proj1 (proj2 ProgramMapping_numbers) "rock_organ"%string 18 H).
Defined.

(** X23.  [DrumMapping.NAME_TO_NUMBER] has 63 distinct names numbered 27 to
    89 in order: every number in that range has one name and no other, and
    every number it gives is a pitch that the mask [pitch & 0x7F] of
    [addNote] leaves as it is. *)
Theorem DrumMapping_numbers :
  let d := py_dict DrumMapping_NAME_TO_NUMBER in
  (forall name n,
     d !! name = Some n <-> (name, n) ∈ DrumMapping_NAME_TO_NUMBER) /\
  (forall name n, d !! name = Some n -> 27 <= n <= 89 /\ Z.land n 0x7F = n) /\
  (forall n, 27 <= n <= 89 ->
     exists name,
       d !! name = Some n /\ forall name', d !! name' = Some n -> name' = name).
Proof.
  assert (Hnums : map snd DrumMapping_NAME_TO_NUMBER = seqZ 27 63)
    by (vm_compute; reflexivity).
  pose proof DrumMapping_distinct as Hnodup.
  simpl. split; [| split].
  - intros name n. apply py_dict_lookup, Hnodup.
  - intros name n H.
    pose proof (table_number_range _ 27 63 Hnodup Hnums name n H) as Hr.
    split; [lia | apply group_land_7F; lia].
  - intros n Hn. apply (table_name_of_number _ 27 63 Hnodup Hnums). lia.
Qed.

Lemma DrumMapping_numbers_witness :
  py_dict DrumMapping_NAME_TO_NUMBER !! "kick_drum"%string = Some 35 /\
  27 <= 35 <= 89 /\ Z.land 35 0x7F = 35.
Proof.
  assert (H : py_dict DrumMapping_NAME_TO_NUMBER !! "kick_drum"%string
              = Some 35) by (vm_compute; reflexivity).
  split; [exact H |].
  apply (proj1 (proj2 DrumMapping_numbers) "kick_drum"%string 35 H).
Defined.

(** X24.  The 18 drums of [MidiTest.DRUMS] have distinct names and distinct
    pitches, and every pitch is one [DrumMapping.NAME_TO_NUMBER] has a name
    for; the default pitch 32 of the lookups is none of them. *)
Theorem MidiTest_DRUMS_pitches :
  NoDup (map fst MidiTest_DRUMS) /\
  NoDup (map snd MidiTest_DRUMS) /\
  (DEFAULT_DRUM_PITCH ∉ map snd MidiTest_DRUMS) /\
  (forall name pitch,
     py_dict MidiTest_DRUMS !! name = Some pitch ->
     exists gm_name,
       py_dict DrumMapping_NAME_TO_NUMBER !! gm_name = Some pitch).
Proof.
  assert (Hnodup : NoDup (map fst MidiTest_DRUMS)).
  { apply (bool_decide_unpack _). vm_compute. exact I. }
  split; [exact Hnodup |].
  split; [apply (bool_decide_unpack _); vm_compute; exact I |].
  split; [apply (bool_decide_unpack _); vm_compute; exact I |].
  intros name pitch H.
  apply (py_dict_lookup _ name pitch Hnodup) in H.
  assert (Hrange : 27 <= pitch <= 89).
  { assert (Hall : Forall (fun kv : string * Z => 27 <= snd kv <= 89)
                          MidiTest_DRUMS).
    { apply (bool_decide_unpack _). vm_compute. exact I. }
    rewrite Forall_forall in Hall. apply (Hall (name, pitch) H). }
  assert (Hnums : map snd DrumMapping_NAME_TO_NUMBER = seqZ 27 63)
    by (vm_compute; reflexivity).
  destruct (table_name_of_number _ 27 63 DrumMapping_distinct Hnums pitch)
    as (gm & Hgm & _); [lia |].
  exists gm. exact Hgm.
Qed.

Lemma MidiTest_DRUMS_pitches_witness :
  py_dict MidiTest_DRUMS !! "tom5"%string = Some 50 /\
  exists gm_name,
    py_dict DrumMapping_NAME_TO_NUMBER !! gm_name = Some 50.
Proof.
  assert (H : py_dict MidiTest_DRUMS !! "tom5"%string = Some 50)
    by (vm_compute; reflexivity).
  split; [exact H |].
  apply (proj2 (proj2 (proj2 MidiTest_DRUMS_pitches)) "tom5"%string 50 H).
Defined.
